(** * Search & Replace for Block Editor: eligibility, toolbar and host utilities

    A shallow embedding of [src/core/utils.ts] (the second half of
    [src/src/core/shortcut.tsx]) and of the toolbar filter
    ([src/unnamed/part_000]), together with the properties the
    specification states about them.

    Layout: Part I is the embedding (values, heap, the state-and-exception
    monad, the translated functions, and the match locator of the
    specification); Part II the vocabulary of the statements and the
    sample inputs; Part III the lemmas and theorems about eligibility,
    the toolbar filter, the wait for the editor root, version comparison
    and the match locator; Part IV further properties of the same code,
    of [getShortcut] and of [getAppRoot]. *)

From Stdlib Require Import ZArith Ascii String.
From stdpp Require Import gmap strings list fin_maps.
From Equations.Prop Require Import Equations Logic.

Local Open Scope string_scope.
Local Open Scope list_scope.
Local Open Scope nat_scope.

(* ===================================================================== *)
(** * Part I: the embedding                                               *)
(* ===================================================================== *)

(** ** JavaScript values *)

(** Numbers.  The code only ever builds integers (a running sum of
    [value * 10^k], a millisecond counter, [-1] from [indexOf]) or [NaN]
    (from [Number] applied to a non-numeric version component).  An IEEE
    double holds every integer up to [2^53] exactly, so on that range the
    arithmetic below is the one JavaScript performs.  Beyond it a double
    rounds and [Num] does not: the statements about computed values keep
    to component lists that stay within the range. *)
Inductive number :=
| NaN
| Num (z : Z).

Definition loc := positive.

Inductive value :=
| VUndefined
| VNull
| VBool (b : bool)
| VNum (n : number)
| VStr (s : string)
| VRef (l : loc).

#[global] Instance number_eq_dec : EqDecision number.
Proof. solve_decision. Defined.

#[global] Instance value_eq_dec : EqDecision value.
Proof. solve_decision. Defined.

(** [a === b].  [NaN] is not equal to itself; objects are compared by
    reference. *)
Definition strict_equals (a b : value) : bool :=
  match a, b with
  | VUndefined, VUndefined => true
  | VNull, VNull => true
  | VBool x, VBool y => bool_decide (x = y)
  | VNum (Num x), VNum (Num y) => bool_decide (x = y)
  | VStr x, VStr y => bool_decide (x = y)
  | VRef x, VRef y => bool_decide (x = y)
  | _, _ => false
  end.

(** [a < b] on numbers: false as soon as one side is [NaN]. *)
Definition num_lt (a b : number) : bool :=
  match a, b with
  | Num x, Num y => bool_decide (x < y)%Z
  | _, _ => false
  end.

Definition num_add (a b : number) : number :=
  match a, b with
  | Num x, Num y => Num (x + y)%Z
  | _, _ => NaN
  end.

Definition num_mul (a b : number) : number :=
  match a, b with
  | Num x, Num y => Num (x * y)%Z
  | _, _ => NaN
  end.

(** ** Objects and the heap *)

(** The one kind of function object the modelled code creates: the arrow
    function [SearchReplaceToolbarIcon] stores in [settings.edit], which
    captures the original [edit]. *)
Inductive closure :=
| ToolbarEdit (edit : value).

(** An object: its own properties, and its code when it is a function
    built by the modelled code.  Built-in properties of function objects
    ([length], [name]) and prototype chains are not modelled: every object
    the code inspects is a plain object literal. *)
Record object := Object {
  own : gmap string value;
  code : option closure;
}.

(** A block type as [getBlockTypes()] lists it.  [registerBlockType]
    only admits string names; [category] is optional. *)
Record BlockType := {
  name : string;
  category : value;
}.

(** The part of the JavaScript world the functions read or write: the
    block-type registry of the [core/blocks] store and the object heap. *)
Record World := {
  blockTypes : list BlockType;
  heap : gmap loc object;
}.

(** ** State and exceptions *)

Inductive error :=
| TypeError
| Error (msg : string).

Inductive result (A : Type) :=
| Ok (a : A)
| Throw (e : error).
Arguments Ok {A} a.
Arguments Throw {A} e.

Definition M (A : Type) : Type := World → result A * World.

Definition ret {A} (a : A) : M A := λ w, (Ok a, w).

Definition throw {A} (e : error) : M A := λ w, (Throw e, w).

Definition bind {A B} (c : M A) (k : A → M B) : M B :=
  λ w, match c w with
       | (Ok a, w') => k a w'
       | (Throw e, w') => (Throw e, w')
       end.

Notation "x <- c ;; k" := (bind c (λ x, k))
  (at level 100, c at next level, right associativity).

Definition gets {A} (f : World → A) : M A := λ w, (Ok (f w), w).

Definition modify (f : World → World) : M unit := λ w, (Ok tt, f w).

(** [array.map(f)] for a callback that may throw. *)
Fixpoint mapM {A B} (f : A → M B) (l : list A) : M (list B) :=
  match l with
  | [] => ret []
  | x :: xs => y <- f x ;; ys <- mapM f xs ;; ret (y :: ys)
  end.

(** ** Property access *)

(** The own property [k] of the object at [l]; a location absent from the
    heap has none. *)
Definition own_prop (w : World) (l : loc) (k : string) : option value :=
  o ← heap w !! l; own o !! k.

(** A key is an array index when it is the canonical decimal spelling of
    a natural number. *)
Definition is_digit (c : ascii) : bool :=
  let n := nat_of_ascii c in (48 <=? n)%nat && (n <=? 57)%nat.

Fixpoint decimal_value (acc : nat) (s : string) : option nat :=
  match s with
  | EmptyString => Some acc
  | String c s' =>
      if is_digit c
      then decimal_value (10 * acc + (nat_of_ascii c - 48)) s'
      else None
  end.

Definition index_of_key (k : string) : option nat :=
  match k with
  | EmptyString => None
  | String "0" EmptyString => Some 0
  | String "0" _ => None
  | _ => decimal_value 0 k
  end.

(** [v.hasOwnProperty(k)], a method call.  It throws on [undefined] and
    [null].  On an object the method is looked up on the object first: an
    own property named [hasOwnProperty] shadows the built-in, and calling
    it throws a [TypeError] when it is not a function.  (A function there
    would be foreign code, which the model does not run; the statements
    that let rule entries vary keep to entries without one.)  Otherwise
    the built-in answers: a string primitive owns [length] and its
    indices; booleans and numbers own nothing. *)
Definition hasOwnProperty (v : value) (k : string) : M bool :=
  match v with
  | VUndefined | VNull => throw TypeError
  | VBool _ | VNum _ => ret false
  | VStr s =>
      ret match index_of_key k with
          | Some i => bool_decide (i < String.length s)
          | None => bool_decide (k = "length")
          end
  | VRef l =>
      shadow <- gets (λ w, own_prop w l "hasOwnProperty") ;;
      match shadow with
      | Some _ => throw TypeError
      | None => gets (λ w, bool_decide (is_Some (own_prop w l k)))
      end
  end.

(** [o[k]] for an object reference [o], read from its own properties
    (see [object]). *)
Definition getProp (l : loc) (k : string) : M value :=
  gets (λ w, default VUndefined (own_prop w l k)).

(** [o[k] = v]. *)
Definition setProp (l : loc) (k : string) (v : value) : M unit :=
  modify (λ w,
    let o := default (Object ∅ None) (heap w !! l) in
    {| blockTypes := blockTypes w;
       heap := <[l := Object (<[k := v]> (own o)) (code o)]> (heap w) |}).

(** Evaluating a function expression allocates a fresh function object. *)
Definition newClosure (c : closure) : M loc :=
  λ w, let l := fresh (dom (heap w)) in
       (Ok l, {| blockTypes := blockTypes w;
                 heap := <[l := Object ∅ (Some c)]> (heap w) |}).

(** [array.indexOf(x)]: position of the first element [===] to [x], or
    [-1]. *)
Fixpoint indexOf_from (i : Z) (l : list value) (x : value) : Z :=
  match l with
  | [] => (-1)%Z
  | y :: ys => if strict_equals y x then i else indexOf_from (i + 1)%Z ys x
  end.

Definition indexOf (l : list value) (x : value) : Z := indexOf_from 0%Z l x.

(** ** Filter hooks ([@wordpress/hooks]) *)

(** A registered filter callback receives the current array and returns
    the next one; it is foreign code, so it may throw or write to the
    heap.  This is a provider that keeps to the announced types, an array
    without holes; what lines 70-76 do with any other output is
    [combineOutputs] below. *)
Definition callback : Type := list value → M (list value).

(** The callbacks registered under each hook name, in running order. *)
Definition Hooks : Type := gmap string (list callback).

Definition registered (hooks : Hooks) (hookName : string) : list callback :=
  default [] (hooks !! hookName).

Fixpoint runCallbacks (cbs : list callback) (v : list value) : M (list value) :=
  match cbs with
  | [] => ret v
  | cb :: rest => v' <- cb v ;; runCallbacks rest v'
  end.

(** [applyFilters(hookName, value)]: each callback receives what the one
    before it returned; with nothing registered the value comes back
    unchanged.  The library's own bookkeeping (run counters, the stack of
    running hooks) is not part of the modelled world. *)
Definition applyFilters (hooks : Hooks) (hookName : string) (v : list value)
  : M (list value) :=
  runCallbacks (registered hooks hookName) v.

(** ** [utils.ts] *)

(** [getBlockTypes()] of [@wordpress/blocks]. *)
Definition getBlockTypes : M (list BlockType) := gets blockTypes.

(** [getTextBlocks], lines 108-115. *)
Definition getTextBlocks : M (list string) :=
  types <- getBlockTypes ;;
  ret (map name
         (List.filter (λ block, strict_equals (category block) (VStr "text"))
            types)).

Definition allowedBlocks_hook : string :=
  "search-replace-for-block-editor.allowedBlocks".

Definition allowedBlocksAndFields_hook : string :=
  "search-replace-for-block-editor.allowedBlocksAndFields".

(** [getAllowedBlocksAndFields], lines 79-96. *)
Definition getAllowedBlocksAndFields (hooks : Hooks) : M (list value) :=
  textBlocks <- getTextBlocks ;;
  applyFilters hooks allowedBlocksAndFields_hook (map VStr textBlocks).

(** The callback of the [map] at lines 70-74: the name of an entry that
    has one of its own, and otherwise the implicit [undefined] of a
    function that falls off its end. *)
Definition fieldBlockName (block : value) : M value :=
  has <- hasOwnProperty block "name" ;;
  if (has : bool) then
    match block with
    | VRef l => getProp l "name"
    | _ => ret VUndefined
    end
  else ret VUndefined.

(** [getAllowedBlocks], lines 53-77. *)
Definition getAllowedBlocks (hooks : Hooks) : M (list value) :=
  textBlocks <- getTextBlocks ;;
  blocks <- applyFilters hooks allowedBlocks_hook (map VStr textBlocks) ;;
  fields <- getAllowedBlocksAndFields hooks ;;
  fieldBlocks <- mapM fieldBlockName fields ;;
  ret (blocks ++ fieldBlocks).

(** ** Lines 70-76 on whatever the providers returned *)


(** [array.map(f)]: holes are skipped and stay holes. *)
Fixpoint mapSlots (f : value → M value) (slots : list (option value))
  : M (list (option value)) :=
  match slots with
  | [] => ret []
  | None :: rest => ys <- mapSlots f rest ;; ret (None :: ys)
  | Some x :: rest => y <- f x ;; ys <- mapSlots f rest ;; ret (Some y :: ys)
  end.




(** ** The toolbar filter ([blocks.registerBlockType]) *)

(** [SearchReplaceToolbarIcon], lines 22-57 of the toolbar module.
    [settings] is the block settings object handed to the filter; the
    function writes to it in place and returns the same reference. *)
Definition SearchReplaceToolbarIcon (hooks : Hooks) (settings : loc) : M value :=
  blockName <- getProp settings "name" ;;
  edit <- getProp settings "edit" ;;
  allowed <- getAllowedBlocks hooks ;;
  if bool_decide (indexOf allowed blockName = (-1)%Z) then
    ret (VRef settings)
  else
    wrapped <- newClosure (ToolbarEdit edit) ;;
    _ <- setProp settings "edit" (VRef wrapped) ;;
    ret (VRef settings).

(** ** Version comparison *)

(** [array.reduce(f, init)]: the callback receives the accumulator, the
    element and its index. *)
Fixpoint reduce_from {A B} (f : B → A → nat → B) (index : nat) (l : list A)
  (acc : B) : B :=
  match l with
  | [] => acc
  | x :: xs => reduce_from f (S index) xs (f acc x index)
  end.

Definition reduce {A B} (f : B → A → nat → B) (l : list A) (init : B) : B :=
  reduce_from f 0 l init.

(** [Math.pow(10, e)] for the exponents the code passes, which are never
    negative ([index] stays below [values.length]). *)
Definition pow10 (e : Z) : number := Num (10 ^ e)%Z.

(** [getNumberToBase10], lines 322-331. *)
Definition getNumberToBase10 (values : list number) : number :=
  let radix :=
    reduce
      (λ sum value index,
         num_add sum
           (num_mul value
              (pow10 (Z.of_nat (length values) - 1 - Z.of_nat index)%Z)))
      values (Num 0)
  in radix.

(** [s.split(sep)] for a one-character separator. *)
Fixpoint split (sep : ascii) (s : string) : list string :=
  match s with
  | EmptyString => [EmptyString]
  | String c s' =>
      if Ascii.eqb c sep then EmptyString :: split sep s'
      else match split sep s' with
           | [] => [String c EmptyString]
           | piece :: pieces => String c piece :: pieces
           end
  end.

Section Version.

(** The built-in [Number] conversion of a string, which is not code of
    this repository: the functions take it as given. *)
Variable Number : string → number.

(** [isWpVersion], lines 298-310; [wpVersion] is the global
    [srfbe.wpVersion]. *)
Definition isWpVersion (wpVersion version : string) : bool :=
  let argVersion := getNumberToBase10 (map Number (split "." version)) in
  let sysVersion := getNumberToBase10 (map Number (split "." wpVersion)) in
  negb (num_lt sysVersion argVersion).

(** ** Waiting for the editor root *)

Definition element := loc.

(** A document state, seen through [document.querySelector]. *)
Definition Document : Type := string → option element.

Inductive promise :=
| Pending
| Resolved (root : element)
| Rejected (e : error).

(** The state [getEditorRoot] keeps between two runs of its interval
    callback. *)
Record poller := Poller {
  elapsedTime : Z;
  cleared : bool;
  outcome : promise;
}.

Definition interval : Z := 100.

(** [clearInterval(intervalId)]. *)
Definition clearInterval (p : poller) : poller :=
  Poller (elapsedTime p) true (outcome p).

(** [resolve] and [reject] settle a promise once; later calls do
    nothing. *)
Definition resolve (root : element) (p : poller) : poller :=
  match outcome p with
  | Pending => Poller (elapsedTime p) (cleared p) (Resolved root)
  | _ => p
  end.

Definition reject (e : error) (p : poller) : poller :=
  match outcome p with
  | Pending => Poller (elapsedTime p) (cleared p) (Rejected e)
  | _ => p
  end.

(** The selector chosen at lines 199-201. *)
Definition selector (wpVersion : string) : string :=
  if isWpVersion wpVersion "6.6.0"
  then ".editor-header__toolbar"
  else ".edit-post-header__toolbar".

(** The body of the interval callback, lines 205-218. *)
Definition onInterval (sel : string) (document : Document) (p : poller)
  : poller :=
  let p := Poller (elapsedTime p + interval)%Z (cleared p) (outcome p) in
  let root := document sel in
  let p :=
    match root with
    | Some r => resolve r (clearInterval p)
    | None => p
    end in
  if bool_decide (elapsedTime p > 600 * interval)%Z then
    reject (Error "Unable to get Editor root container...") (clearInterval p)
  else p.

(** [setInterval] runs the callback every [interval] ms until the
    interval is cleared. *)
Definition fire (sel : string) (document : Document) (p : poller) : poller :=
  if cleared p then p else onInterval sel document p.

(** [getEditorRoot], lines 195-221, observed after [n] intervals have
    elapsed; [documents k] is the document at the [k]-th one. *)
Fixpoint getEditorRoot (wpVersion : string) (documents : nat → Document)
  (n : nat) : poller :=
  match n with
  | 0 => Poller 0 false Pending
  | S k =>
      fire (selector wpVersion) (documents (S k))
        (getEditorRoot wpVersion documents k)
  end.

End Version.

(** ** The match locator *)

(** Texts are scanned as sequences of characters. *)
Definition chars : Type := list ascii.

(** Does [query] occur at the head of [text]? *)
Fixpoint starts_with (query text : chars) : bool :=
  match query, text with
  | [], _ => true
  | _ :: _, [] => false
  | c :: query', d :: text' => Ascii.eqb c d && starts_with query' text'
  end.

(** The offset of the leftmost occurrence of [query] in [rest], the part
    of the text that begins at [offset]. *)
Fixpoint locate (query rest : chars) (offset : nat) : option nat :=
  if starts_with query rest then Some offset
  else match rest with
       | [] => None
       | _ :: rest' => locate query rest' (S offset)
       end.

Lemma starts_with_length query text :
  starts_with query text = true → length query ≤ length text.
Proof.
  revert text. induction query as [|c query IH]; intros [|d text] H;
    simpl in *; try lia; try discriminate.
  apply andb_true_iff in H as [_ H]. apply IH in H. lia.
Qed.

Lemma locate_range query rest offset i :
  locate query rest offset = Some i →
  offset ≤ i ∧ i + length query ≤ offset + length rest.
Proof.
  revert offset. induction rest as [|d rest IH]; intros offset; simpl.
  - destruct (starts_with query []) eqn:E; [|discriminate].
    intros [= <-]. apply starts_with_length in E. simpl in E. lia.
  - destruct (starts_with query (d :: rest)) eqn:E.
    + intros [= <-]. apply starts_with_length in E. simpl in E. lia.
    + intros H. apply IH in H. lia.
Qed.

(** Case normalisation of one character. *)
Definition to_lower (c : ascii) : ascii :=
  let n := nat_of_ascii c in
  if (65 <=? n)%nat && (n <=? 90)%nat then ascii_of_nat (n + 32) else c.

(** Modelled from the spec: the scanning loop of the Match Locator, which
    is not among the source files.  Section 4.3: "repeatedly locate the
    next occurrence of [query] starting search at [previous match end]
    (non-overlapping matches only, leftmost-first)".  [pos] is the end of
    the previous match. *)
Equations? scan (text query : chars) (pos : nat) : list (nat * nat)
  by wf (length text - pos) lt :=
scan text query pos with inspect (locate query (drop pos text) pos) := {
  | exist _ None _ => [];
  | exist _ (Some i) found with inspect (length query) => {
      | exist _ 0 _ => [];
      | exist _ (S n) nonempty =>
          (i, length query) :: scan text query (i + length query) } }.
Proof.
  apply locate_range in found. rewrite length_drop in found. lia.
Qed.

(** Modelled from the spec: [findAll(text, query, caseSensitive)] of the
    Match Locator, which is not among the source files.  Section 4.3: a
    substring scan returning (offset, length) pairs; "when
    [caseSensitive] is false, comparison is done on a case-normalized
    copy of both text and query; reported offsets/length are always
    against the original text"; "empty query -> zero matches". *)
Definition findAll (text query : string) (caseSensitive : bool)
  : list (nat * nat) :=
  if bool_decide (query = "") then []
  else
    let normalize := if caseSensitive then id else map to_lower in
    scan (normalize (list_ascii_of_string text))
         (normalize (list_ascii_of_string query)) 0.

(** ** The keyboard shortcut *)

(** Evaluating an object literal allocates a fresh object. *)
Definition newObject (props : gmap string value) : M loc :=
  λ w, let l := fresh (dom (heap w)) in
       (Ok l, {| blockTypes := blockTypes w;
                 heap := <[l := Object props None]> (heap w) |}).

(** A filter on a single value (an option object, a flag) rather than on
    an array. *)
Definition scalarCallback : Type := value → M value.

Definition ScalarHooks : Type := gmap string (list scalarCallback).

Fixpoint runScalarCallbacks (cbs : list scalarCallback) (v : value) : M value :=
  match cbs with
  | [] => ret v
  | cb :: rest => v' <- cb v ;; runScalarCallbacks rest v'
  end.

Definition applyFiltersScalar (hooks : ScalarHooks) (hookName : string)
  (v : value) : M value :=
  runScalarCallbacks (default [] (hooks !! hookName)) v.

Definition keyboardShortcut_hook : string :=
  "search-replace-for-block-editor.keyboardShortcut".

(** [getShortcut], lines 127-158.  The literal [options] is built anew
    on every call: the outer object first, then each of its three
    property values. *)
Definition getShortcut (hooks : ScalarHooks) : M value :=
  options <- newObject ∅ ;;
  cmd <- newObject {[ "modifier" := VStr "primary";
                      "character" := VStr "f" ]} ;;
  _ <- setProp options "CMD" (VRef cmd) ;;
  shift <- newObject {[ "modifier" := VStr "primaryShift";
                        "character" := VStr "f" ]} ;;
  _ <- setProp options "SHIFT" (VRef shift) ;;
  alt <- newObject {[ "modifier" := VStr "primaryAlt";
                      "character" := VStr "f" ]} ;;
  _ <- setProp options "ALT" (VRef alt) ;;
  selected <- getProp options "SHIFT" ;;
  applyFiltersScalar hooks keyboardShortcut_hook selected.

(** ** The application container *)

(** A DOM node: its element name, its [id], its children in order and
    its parent. *)
Record node := Node {
  localName : string;
  node_id : string;
  childNodes : list loc;
  parentNode : option loc;
}.

Abbreviation Dom := (gmap loc node).

Inductive dom_result (A : Type) :=
| DomOk (a : A)
| DOMException (exceptionName : string).
Arguments DomOk {A} a.
Arguments DOMException {A} exceptionName.

(** [document.createElement(name)]: a new node outside the tree. *)
Definition createElement (elementName : string) (tree : Dom) : loc * Dom :=
  let l := fresh (dom tree) in
  (l, <[l := Node elementName "" [] None]> tree).

(** [element.id = value]. *)
Definition set_id (l : loc) (value : string) (tree : Dom) : Dom :=
  alter (λ n, Node (localName n) value (childNodes n) (parentNode n)) l tree.

(** Is [a] the node [n] or one of its ancestors?  [fuel] bounds the walk
    up the parent links. *)
Fixpoint inclusive_ancestor (fuel : nat) (tree : Dom) (a n : loc) : bool :=
  bool_decide (a = n) ||
  match fuel with
  | 0 => false
  | S fuel' =>
      match tree !! n ≫= parentNode with
      | Some p => inclusive_ancestor fuel' tree a p
      | None => false
      end
  end.

(** Taking a node out of its parent's children. *)
Definition detach (child : loc) (tree : Dom) : Dom :=
  match tree !! child ≫= parentNode with
  | Some old =>
      alter (λ n, Node (localName n) (node_id n)
                    (List.filter (λ c, negb (bool_decide (c = child)))
                       (childNodes n))
                    (parentNode n)) old tree
  | None => tree
  end.

(** [parent.appendChild(child)]: refused when [child] is [parent] or one
    of its ancestors; otherwise [child] leaves its previous parent and
    becomes the last child of [parent]. *)
Definition appendChild (parent child : loc) (tree : Dom)
  : dom_result loc * Dom :=
  if inclusive_ancestor (size tree) tree child parent then
    (DOMException "HierarchyRequestError", tree)
  else
    let tree := detach child tree in
    let tree :=
      alter (λ n, Node (localName n) (node_id n) (childNodes n ++ [child])
                    (parentNode n)) parent tree in
    let tree :=
      alter (λ n, Node (localName n) (node_id n) (childNodes n)
                    (Some parent)) child tree in
    (DomOk child, tree).

(** [getAppRoot], lines 234-240. *)
Definition getAppRoot (parent : loc) (tree : Dom) : dom_result loc * Dom :=
  let (container, tree) := createElement "div" tree in
  let tree := set_id container "search-replace" tree in
  match appendChild parent container tree with
  | (DomOk _, tree) => (DomOk container, tree)
  | (DOMException e, tree) => (DOMException e, tree)
  end.

(* ===================================================================== *)
(** * Part II: vocabulary of the statements, and sample inputs            *)
(* ===================================================================== *)

(** ** Effects *)

(** A computation is read-only when it hands back the world it was
    given, whether it returns or throws. *)
Definition read_only {A} (c : M A) : Prop := ∀ w, (c w).2 = w.

(** A rule provider with fixed outputs: its callbacks only compute a
    result from their argument and the world, and leave the world as it
    is. *)
Definition pure_providers (hooks : Hooks) (hookName : string) : Prop :=
  Forall (λ cb : callback, ∀ x, read_only (cb x)) (registered hooks hookName).

(** ** Rule entries and membership *)

(** [undefined] and [null] have no properties to ask for. *)
Definition nullish (v : value) : Prop := v = VUndefined ∨ v = VNull.

#[global] Instance nullish_dec v : Decision (nullish v).
Proof. unfold nullish. apply _. Defined.

(** An entry that carries a [hasOwnProperty] of its own, in place of
    the built-in method. *)
Definition shadows (w : World) (v : value) : Prop :=
  match v with
  | VRef l => is_Some (own_prop w l "hasOwnProperty")
  | _ => False
  end.

#[global] Instance shadows_dec w v : Decision (shadows w v).
Proof. destruct v; simpl; apply _. Defined.

(** An entry that line 71 cannot ask for its name: [null], [undefined],
    or an object whose own [hasOwnProperty] is not the method. *)
Definition unreadable (w : World) (v : value) : Prop :=
  nullish v ∨ shadows w v.

#[global] Instance unreadable_dec w v : Decision (unreadable w v).
Proof. unfold unreadable. apply _. Defined.




(** The name an entry carries as a property of its own, if any. *)
Definition own_name (w : World) (entry : value) : option value :=
  match entry with
  | VRef l => own_prop w l "name"
  | _ => None
  end.

(** The run of the first rule source inside [getAllowedBlocks]: the
    [allowedBlocks] hook applied to the text blocks (lines 65-68). *)
Definition allowedBlocksFilter (hooks : Hooks) : M (list value) :=
  textBlocks <- getTextBlocks ;;
  applyFilters hooks allowedBlocks_hook (map VStr textBlocks).

(** [x] is in the array [l], as [indexOf] sees it. *)
Definition includes (l : list value) (x : value) : Prop :=
  ∃ y, y ∈ l ∧ strict_equals y x = true.

(** ** Version numbers *)

(** The value the documentation of [getNumberToBase10] describes: the
    components read as the digits of a base-10 numeral,
    [v0 * 10^(n-1) + ... + v(n-1) * 10^0]. *)
Fixpoint positional_value (values : list Z) : Z :=
  match values with
  | [] => 0
  | v :: rest => v * 10 ^ Z.of_nat (length rest) + positional_value rest
  end.

(** Comparison of two component lists from the left, as far as both
    have components. *)
Fixpoint lex_compare (a b : list Z) : comparison :=
  match a, b with
  | x :: a', y :: b' =>
      match (x ?= y)%Z with
      | Eq => lex_compare a' b'
      | c => c
      end
  | _, _ => Eq
  end.

Definition pad (n : nat) (l : list Z) : list Z :=
  l ++ replicate (n - length l) 0%Z.

(** Numeric version ordering: components are compared from the left, a
    missing component counting as [0]. *)
Definition version_compare (a b : list Z) : comparison :=
  let n := length a `max` length b in
  lex_compare (pad n a) (pad n b).

(** A version component that is a single decimal digit. *)
Definition digit (v : Z) : Prop := (0 ≤ v ≤ 9)%Z.

(** Component lists on which the doubles of the source compute as the
    integers of the model do: no component is negative; there are at most
    23 of them, so that every power of ten used is at most [10^22], which
    a double holds exactly; and the positional value, hence every term
    and every partial sum, is at most [2^53]. *)
Definition safe_components (values : list Z) : Prop :=
  Forall (λ v, (0 ≤ v)%Z) values ∧
  length values ≤ 23 ∧
  (positional_value values ≤ 2 ^ 53)%Z.

(** A conversion that agrees with [Number] on the empty string and on
    strings of decimal digits, and is [NaN] elsewhere. *)
Definition decimalNumber (s : string) : number :=
  match decimal_value 0 s with
  | Some n => Num (Z.of_nat n)
  | None => NaN
  end.

(** ** The editor root *)

(** The error [getEditorRoot] rejects with (line 217). *)
Definition timeout_error : error :=
  Error "Unable to get Editor root container...".

(** ** Match lists *)

(** Matches laid out from [pos] on: each begins at or after the end of
    the one before it and is not empty. *)
Fixpoint well_spaced (pos : nat) (matches : list (nat * nat)) : Prop :=
  match matches with
  | [] => True
  | (offset, len) :: rest =>
      pos ≤ offset ∧ 0 < len ∧ well_spaced (offset + len) rest
  end.

(** ** Sample registries, heaps and rule providers *)

Definition paragraph : BlockType :=
  {| name := "core/paragraph"; category := VStr "text" |}.

Definition image : BlockType :=
  {| name := "core/image"; category := VStr "media" |}.

Definition heading : BlockType :=
  {| name := "core/heading"; category := VStr "text" |}.

(** A registry with two text blocks around a media block, and an empty
    heap. *)
Definition sample_world : World :=
  {| blockTypes := [paragraph; image; heading]; heap := ∅ |}.

(** No filter registered at all. *)
Definition no_hooks : Hooks := ∅.

(** A heap with two rule entries: [{name: 'acme/card'}] at location 1 and
    the nameless [{}] at location 2. *)
Definition rules_world : World :=
  {| blockTypes := [paragraph; image];
     heap := {[ 1%positive := Object {[ "name" := VStr "acme/card" ]} None;
                2%positive := Object ∅ None ]} |}.

(** A provider of block-and-field rules that returns both entries. *)
Definition rules_hooks : Hooks :=
  {[ allowedBlocksAndFields_hook :=
       [(λ _ : list value, ret [VRef 1%positive; VRef 2%positive]) : callback] ]}.

(** A provider that appends a number to the allowed block names. *)
Definition number_hooks : Hooks :=
  {[ allowedBlocks_hook :=
       [(λ blocks : list value, ret (blocks ++ [VNum (Num 42)])) : callback] ]}.


(** A provider whose block-and-field rules contain [null]. *)
Definition null_hooks : Hooks :=
  {[ allowedBlocksAndFields_hook :=
       [(λ _ : list value, ret [VNull]) : callback] ]}.

(** A paragraph's settings at location 1 (its [edit] is the host function
    at location 2) and an image's settings at location 3. *)
Definition settings_world : World :=
  {| blockTypes := [paragraph; image];
     heap := {[ 1%positive :=
                  Object {[ "name" := VStr "core/paragraph";
                            "title" := VStr "Paragraph";
                            "edit" := VRef 2%positive ]} None;
                2%positive := Object ∅ None;
                3%positive :=
                  Object {[ "name" := VStr "core/image";
                            "edit" := VRef 2%positive ]} None ]} |}.



(** ** Vocabulary of the further properties *)

(** A provider callback that only adds: whatever it returns contains
    everything it was given. *)
Definition additive (cb : callback) : Prop :=
  ∀ v w r w', cb v w = (Ok r, w') → v ⊆ r.

(** What the default configuration makes eligible: the name of a
    registered text block, or [undefined] when there is a text block at
    all. *)
Definition eligible_by_default (w : World) (v : value) : Prop :=
  (∃ block, block ∈ blockTypes w ∧ category block = VStr "text" ∧
            v = VStr (name block)) ∨
  (v = VUndefined ∧
   ∃ block, block ∈ blockTypes w ∧ category block = VStr "text").

(** Documents in which the toolbar (element 7) is there from the third
    poll on, and documents in which it never is. *)
Definition toolbar_from_third_poll : nat → Document :=
  λ k sel, if bool_decide (3 ≤ k ∧ sel = ".editor-header__toolbar")
           then Some 7%positive else None.

Definition no_toolbar : nat → Document := λ _ _, None.

(** Settings without a name, at location 1, in a registry with a text
    block. *)
Definition nameless_world : World :=
  {| blockTypes := [paragraph];
     heap := {[ 1%positive := Object {[ "edit" := VNull ]} None ]} |}.

(** A toolbar element (location 1) with one child (location 2). *)
Definition sample_dom : Dom :=
  {[ 1%positive := Node "div" "" [2%positive] None;
     2%positive := Node "button" "" [] (Some 1%positive) ]}.

(** A tree is closed when every parent link stays inside it. *)
Definition closed (tree : Dom) : Prop :=
  ∀ l n p, tree !! l = Some n → parentNode n = Some p → p ∈ dom tree.

(* ===================================================================== *)
(** * Part III: properties                                                *)
(* ===================================================================== *)

(** ** Running monadic code *)

Lemma bind_ok {A B} (c : M A) (k : A → M B) w a w' :
  c w = (Ok a, w') → bind c k w = k a w'.
Proof. unfold bind. by intros ->. Qed.

Lemma bind_throw {A B} (c : M A) (k : A → M B) w e w' :
  c w = (Throw e, w') → bind c k w = (Throw e, w').
Proof. unfold bind. by intros ->. Qed.

Lemma read_only_ret {A} (a : A) : read_only (ret a).
Proof. done. Qed.

Lemma read_only_throw {A} (e : error) : read_only (@throw A e).
Proof. done. Qed.

Lemma read_only_gets {A} (f : World → A) : read_only (gets f).
Proof. done. Qed.

Lemma read_only_bind {A B} (c : M A) (k : A → M B) :
  read_only c → (∀ a, read_only (k a)) → read_only (bind c k).
Proof.
  intros Hc Hk w. unfold bind. specialize (Hc w).
  destruct (c w) as [[a|e] w']; simpl in *; subst; [apply Hk | done].
Qed.

Lemma read_only_mapM {A B} (f : A → M B) (l : list A) :
  (∀ x, read_only (f x)) → read_only (mapM f l).
Proof.
  intros Hf. induction l as [|x xs IH]; simpl; [apply read_only_ret|].
  apply read_only_bind; [apply Hf|]. intros y.
  apply read_only_bind; [apply IH|]. intros ys. apply read_only_ret.
Qed.

Create HintDb read_only.
#[local] Hint Resolve read_only_ret read_only_throw read_only_gets
  read_only_bind read_only_mapM : read_only.

(** ** Strict equality *)

Lemma strict_equals_str v s : strict_equals v (VStr s) = true ↔ v = VStr s.
Proof.
  destruct v as [| |b|[|z]|s'|l]; simpl; try (split; [discriminate|discriminate]).
  rewrite bool_decide_eq_true. split; [by intros ->|by intros [= ->]].
Qed.

(** ** [getTextBlocks] *)

Lemma read_only_getTextBlocks : read_only getTextBlocks.
Proof. unfold getTextBlocks, getBlockTypes. auto with read_only. Qed.

Lemma filter_sublist {A} (f : A → bool) (l : list A) :
  sublist (List.filter f l) l.
Proof.
  induction l as [|x l IH]; simpl; [constructor|].
  destruct (f x); by constructor.
Qed.

(** C1.  [getTextBlocks] returns, without touching the world, the names
    of the registered block types whose category is ["text"]: a name is
    in the result iff some registered block with that name has category
    ["text"], and the result lists the names of those blocks in the order
    of the registry (it is the image of a sub-sequence [kept] of the
    registry made of exactly the text blocks). *)
Theorem getTextBlocks_spec (w : World) :
  ∃ names : list string,
    getTextBlocks w = (Ok names, w) ∧
    (∀ n, n ∈ names ↔
          ∃ block, block ∈ blockTypes w ∧ name block = n ∧
                   category block = VStr "text") ∧
    (∃ kept : list BlockType,
        names = map name kept ∧
        sublist kept (blockTypes w) ∧
        ∀ block, block ∈ kept ↔
                 block ∈ blockTypes w ∧ category block = VStr "text").
Proof.
  set (is_text := λ block, strict_equals (category block) (VStr "text")).
  assert (Hkept : ∀ block, block ∈ List.filter is_text (blockTypes w) ↔
                    block ∈ blockTypes w ∧ category block = VStr "text").
  { intros block. rewrite !list_elem_of_In, filter_In.
    unfold is_text. by rewrite strict_equals_str. }
  exists (map name (List.filter is_text (blockTypes w))).
  split; [reflexivity|]. split.
  - intros n. rewrite list_elem_of_In, in_map_iff. split.
    + intros (block & <- & Hin). apply list_elem_of_In, Hkept in Hin.
      exists block. tauto.
    + intros (block & Hin & <- & Hcat). exists block. split; [done|].
      apply list_elem_of_In, Hkept. tauto.
  - exists (List.filter is_text (blockTypes w)).
    split; [done|]. split; [apply filter_sublist|apply Hkept].
Qed.

(** ** Filter hooks *)

Lemma applyFilters_none hooks hookName v w :
  registered hooks hookName = [] → applyFilters hooks hookName v w = (Ok v, w).
Proof. unfold applyFilters. by intros ->. Qed.

Lemma read_only_runCallbacks cbs v :
  Forall (λ cb : callback, ∀ x, read_only (cb x)) cbs →
  read_only (runCallbacks cbs v).
Proof.
  intros H. revert v. induction H as [|cb cbs Hcb _ IH]; intros v; simpl;
    auto with read_only.
Qed.

(** ** The [map] callback of [getAllowedBlocks] *)

Lemma read_only_hasOwnProperty v k : read_only (hasOwnProperty v k).
Proof.
  destruct v; simpl; auto with read_only.
  apply read_only_bind; [auto with read_only|].
  intros [shadow|]; auto with read_only.
Qed.

Lemma read_only_fieldBlockName block : read_only (fieldBlockName block).
Proof.
  unfold fieldBlockName. apply read_only_bind;
    [apply read_only_hasOwnProperty|].
  intros [|]; [|auto with read_only].
  destruct block; unfold getProp; auto with read_only.
Qed.

Lemma hasOwnProperty_ref l k w :
  hasOwnProperty (VRef l) k w =
    (match own_prop w l "hasOwnProperty" with
     | Some _ => Throw TypeError
     | None => Ok (bool_decide (is_Some (own_prop w l k)))
     end, w).
Proof.
  unfold hasOwnProperty, bind, gets.
  by destruct (own_prop w l "hasOwnProperty").
Qed.

Lemma fieldBlockName_ok block w :
  ¬ unreadable w block →
  fieldBlockName block w = (Ok (default VUndefined (own_name w block)), w).
Proof.
  unfold unreadable, nullish. intros Hn.
  destruct block as [| |b|n|s|l]; try reflexivity; try tauto.
  assert (Hshadow : own_prop w l "hasOwnProperty" = None).
  { apply eq_None_not_Some. intros Hs. apply Hn. by right. }
  unfold fieldBlockName.
  erewrite bind_ok by (by rewrite hasOwnProperty_ref, Hshadow).
  unfold getProp, gets, ret, own_name.
  case_bool_decide as Hsome; [done|].
  apply eq_None_not_Some in Hsome. by rewrite Hsome.
Qed.

Lemma fieldBlockName_unreadable block w :
  unreadable w block → fieldBlockName block w = (Throw TypeError, w).
Proof.
  intros [[-> | ->]|Hs]; [done..|].
  destruct block as [| |b|n|s|l]; try done.
  destruct Hs as [shadow Hs]. unfold fieldBlockName.
  by erewrite bind_throw by (by rewrite hasOwnProperty_ref, Hs).
Qed.

Lemma mapM_fieldBlockName_ok fields w :
  Forall (λ e, ¬ unreadable w e) fields →
  mapM fieldBlockName fields w =
    (Ok (map (λ e, default VUndefined (own_name w e)) fields), w).
Proof.
  induction 1 as [|e fields He _ IH]; simpl; [done|].
  erewrite bind_ok by (by apply fieldBlockName_ok).
  erewrite bind_ok by exact IH. done.
Qed.

Lemma mapM_fieldBlockName_unreadable fields w :
  Exists (unreadable w) fields →
  mapM fieldBlockName fields w = (Throw TypeError, w).
Proof.
  induction fields as [|e fields IH]; intros H; [by apply Exists_nil in H|].
  simpl. destruct (decide (unreadable w e)) as [He|He].
  - by erewrite bind_throw by (by apply fieldBlockName_unreadable).
  - apply Exists_cons in H as [H|H]; [done|].
    erewrite bind_ok by (by apply fieldBlockName_ok).
    by erewrite bind_throw by (by apply IH).
Qed.

(** ** [getAllowedBlocks] *)

Lemma getAllowedBlocks_unfold hooks w :
  getAllowedBlocks hooks w =
  (blocks <- allowedBlocksFilter hooks ;;
   fields <- getAllowedBlocksAndFields hooks ;;
   fieldBlocks <- mapM fieldBlockName fields ;;
   ret (blocks ++ fieldBlocks)) w.
Proof.
  unfold getAllowedBlocks, allowedBlocksFilter, bind.
  destruct (getTextBlocks w) as [[names|e] w']; [|done].
  by destruct (applyFilters _ _ _ w') as [[blocks|e] w''].
Qed.

(** What [getAllowedBlocks] does with the outputs of the two hooks. *)
Lemma getAllowedBlocks_run hooks w w1 w2 blocks fields :
  allowedBlocksFilter hooks w = (Ok blocks, w1) →
  getAllowedBlocksAndFields hooks w1 = (Ok fields, w2) →
  getAllowedBlocks hooks w =
    if decide (Exists (unreadable w2) fields) then (Throw TypeError, w2)
    else (Ok (blocks ++ map (λ e, default VUndefined (own_name w2 e)) fields),
          w2).
Proof.
  intros H1 H2. rewrite getAllowedBlocks_unfold.
  erewrite bind_ok by exact H1. erewrite bind_ok by exact H2.
  case_decide as Hn.
  - by erewrite bind_throw by (by apply mapM_fieldBlockName_unreadable).
  - erewrite bind_ok; [done|]. apply mapM_fieldBlockName_ok.
    apply Forall_forall. intros e He Hnull. apply Hn, Exists_exists. eauto.
Qed.

Lemma read_only_getAllowedBlocksAndFields hooks :
  Forall (λ cb : callback, ∀ x, read_only (cb x))
    (registered hooks allowedBlocksAndFields_hook) →
  read_only (getAllowedBlocksAndFields hooks).
Proof.
  intros H. unfold getAllowedBlocksAndFields, applyFilters.
  apply read_only_bind; [apply read_only_getTextBlocks|].
  intros names. by apply read_only_runCallbacks.
Qed.

Lemma read_only_getAllowedBlocks hooks :
  Forall (λ cb : callback, ∀ x, read_only (cb x))
    (registered hooks allowedBlocks_hook) →
  Forall (λ cb : callback, ∀ x, read_only (cb x))
    (registered hooks allowedBlocksAndFields_hook) →
  read_only (getAllowedBlocks hooks).
Proof.
  intros H1 H2. unfold getAllowedBlocks, applyFilters.
  apply read_only_bind; [apply read_only_getTextBlocks|]. intros names.
  apply read_only_bind; [by apply read_only_runCallbacks|]. intros blocks.
  apply read_only_bind; [by apply read_only_getAllowedBlocksAndFields|].
  intros fields. apply read_only_bind; [|auto with read_only].
  apply read_only_mapM, read_only_fieldBlockName.
Qed.

(** ** [getAllowedBlocks] without filters *)

Lemma getTextBlocks_run w :
  ∃ names, getTextBlocks w = (Ok names, w).
Proof. by eexists. Qed.

Lemma map_VStr_not_nullish (names : list string) :
  ¬ Exists nullish (map VStr names).
Proof.
  rewrite Exists_exists. intros (v & Hin & Hnull).
  apply list_elem_of_In, in_map_iff in Hin as (s & <- & _).
  by destruct Hnull.
Qed.

Lemma map_VStr_readable w (names : list string) :
  ¬ Exists (unreadable w) (map VStr names).
Proof.
  rewrite Exists_exists. intros (v & Hin & Hun).
  apply list_elem_of_In, in_map_iff in Hin as (s & <- & _).
  by destruct Hun as [[|]|].
Qed.

Lemma map_VStr_own_name w (names : list string) :
  map (λ e, default VUndefined (own_name w e)) (map VStr names) =
  replicate (length names) VUndefined.
Proof. induction names as [|s names IH]; simpl; [done|by rewrite IH]. Qed.

(** C3.  With no filter registered under either hook,
    [getAllowedBlocksAndFields] is the list of text-block names (as
    strings), and [getAllowedBlocks] is that list followed by one
    [undefined] per text block: for [n] text blocks it has length [2n],
    starts with the [n] names and ends with [n] entries [undefined]. *)
Theorem getAllowedBlocks_no_filters (hooks : Hooks) (w : World) :
  registered hooks allowedBlocks_hook = [] →
  registered hooks allowedBlocksAndFields_hook = [] →
  ∃ (names : list string) (allowed : list value),
    getTextBlocks w = (Ok names, w) ∧
    getAllowedBlocksAndFields hooks w = (Ok (map VStr names), w) ∧
    getAllowedBlocks hooks w = (Ok allowed, w) ∧
    length allowed = 2 * length names ∧
    take (length names) allowed = map VStr names ∧
    drop (length names) allowed = replicate (length names) VUndefined.
Proof.
  intros Hblocks Hfields.
  destruct (getTextBlocks_run w) as [names Hnames].
  assert (H1 : allowedBlocksFilter hooks w = (Ok (map VStr names), w)).
  { unfold allowedBlocksFilter. erewrite bind_ok by exact Hnames.
    by apply applyFilters_none. }
  assert (H2 : getAllowedBlocksAndFields hooks w = (Ok (map VStr names), w)).
  { unfold getAllowedBlocksAndFields. erewrite bind_ok by exact Hnames.
    by apply applyFilters_none. }
  exists names, (map VStr names ++ replicate (length names) VUndefined).
  split; [done|]. split; [done|]. split.
  { rewrite (getAllowedBlocks_run _ _ _ _ _ _ H1 H2).
    rewrite decide_False by apply map_VStr_readable.
    by rewrite map_VStr_own_name. }
  split; [rewrite length_app, length_map, length_replicate; lia|].
  split.
  - rewrite take_app_length'; [done|by rewrite length_map].
  - rewrite drop_app_length'; [done|by rewrite length_map].
Qed.

Lemma getAllowedBlocks_no_filters_witness :
  ∃ allowed,
    getAllowedBlocks no_hooks sample_world = (Ok allowed, sample_world) ∧
    allowed = [VStr "core/paragraph"; VStr "core/heading";
               VUndefined; VUndefined].
Proof.
  destruct (getAllowedBlocks_no_filters no_hooks sample_world eq_refl eq_refl)
    as (names & allowed & Hnames & _ & Hallowed & _).
  exists allowed. split; [exact Hallowed|].
  vm_compute in Hallowed. by injection Hallowed as <-.
Defined.

(** C2.  The code at the failing input: the default configuration.
    With no filter registered both hooks output the text-block names, and
    [getAllowedBlocks] returns them followed by one [undefined] each.
    [undefined] is in the result although the first hook did not produce
    it and it is the name of no entry of the second (a string has no name
    of its own): the callback of lines 70-74 returns nothing for such an
    entry, against the [string[]] the function declares. *)
Lemma getAllowedBlocks_undefined_entries :
  allowedBlocksFilter no_hooks sample_world =
    (Ok [VStr "core/paragraph"; VStr "core/heading"], sample_world) ∧
  getAllowedBlocksAndFields no_hooks sample_world =
    (Ok [VStr "core/paragraph"; VStr "core/heading"], sample_world) ∧
  ∃ allowed,
    getAllowedBlocks no_hooks sample_world = (Ok allowed, sample_world) ∧
    allowed = [VStr "core/paragraph"; VStr "core/heading";
               VUndefined; VUndefined] ∧
    VUndefined ∈ allowed ∧
    (VUndefined ∉ [VStr "core/paragraph"; VStr "core/heading"]) ∧
    ∀ entry, entry ∈ [VStr "core/paragraph"; VStr "core/heading"] →
             own_name sample_world entry = None.
Proof.
  split; [reflexivity|]. split; [reflexivity|].
  exists [VStr "core/paragraph"; VStr "core/heading"; VUndefined; VUndefined].
  split; [reflexivity|]. split; [reflexivity|].
  split; [by repeat constructor|]. split.
  - intros Hin. apply list_elem_of_In in Hin.
    simpl in Hin. by destruct Hin as [|[|[]]].
  - intros entry Hin. apply list_elem_of_In in Hin.
    simpl in Hin. by destruct Hin as [<-|[<-|[]]].
Qed.


Lemma mapSlots_read_only (slots : list (option value)) :
  read_only (mapSlots fieldBlockName slots).
Proof.
  induction slots as [|[x|] slots IH]; simpl; auto with read_only.
  apply read_only_bind; [apply read_only_fieldBlockName|]. intros y.
  auto with read_only.
Qed.








(** ** Purity of the eligibility computation *)

(** C6.  Eligibility is a pure function of the registry and of the rule
    providers' outputs.  [getTextBlocks] never changes the world, and when
    the providers of both hooks are pure neither does [getAllowedBlocks];
    so two successive calls of either run in the same world and return
    identical results. *)
Theorem eligibility_pure (hooks : Hooks) (w : World) :
  pure_providers hooks allowedBlocks_hook →
  pure_providers hooks allowedBlocksAndFields_hook →
  (∀ r1 w1 r2 w2,
      getAllowedBlocks hooks w = (r1, w1) →
      getAllowedBlocks hooks w1 = (r2, w2) →
      w1 = w ∧ w2 = w ∧ r2 = r1) ∧
  (∀ r1 w1 r2 w2,
      getTextBlocks w = (r1, w1) →
      getTextBlocks w1 = (r2, w2) →
      w1 = w ∧ w2 = w ∧ r2 = r1).
Proof.
  intros H1 H2.
  assert (Hseq : ∀ A (c : M A), read_only c → ∀ r1 w1 r2 w2,
             c w = (r1, w1) → c w1 = (r2, w2) → w1 = w ∧ w2 = w ∧ r2 = r1).
  { intros A c Hc r1 w1 r2 w2 E1 E2.
    pose proof (Hc w) as Hw. rewrite E1 in Hw. simpl in Hw. subst w1.
    rewrite E1 in E2. by injection E2 as -> ->. }
  split.
  - apply Hseq. by apply read_only_getAllowedBlocks.
  - apply Hseq, read_only_getTextBlocks.
Qed.

Lemma eligibility_pure_witness :
  ∃ r w1 w2,
    getAllowedBlocks rules_hooks rules_world = (r, w1) ∧
    getAllowedBlocks rules_hooks w1 = (r, w2) ∧
    w1 = rules_world ∧ w2 = rules_world.
Proof.
  destruct (eligibility_pure rules_hooks rules_world) as [Hallowed _].
  - unfold pure_providers. vm_compute registered. constructor.
  - unfold pure_providers. vm_compute registered.
    constructor; [|constructor]. intros x w. reflexivity.
  - pose (p1 := getAllowedBlocks rules_hooks rules_world).
    pose (p2 := getAllowedBlocks rules_hooks p1.2).
    assert (E1 : getAllowedBlocks rules_hooks rules_world = (p1.1, p1.2))
      by apply surjective_pairing.
    assert (E2 : getAllowedBlocks rules_hooks p1.2 = (p2.1, p2.2))
      by apply surjective_pairing.
    destruct (Hallowed _ _ _ _ E1 E2) as (Hw1 & Hw2 & Hr).
    exists p1.1, p1.2, p2.2. rewrite <- Hr. done.
Defined.

(** ** The toolbar filter *)

Lemma indexOf_from_spec i l x :
  (0 ≤ i)%Z →
  (indexOf_from i l x = (-1)%Z ∧ ¬ includes l x) ∨
  ((i ≤ indexOf_from i l x)%Z ∧ includes l x).
Proof.
  revert i. induction l as [|y l IH]; intros i Hi; simpl.
  - left. split; [done|]. intros (y & Hy & _). by apply elem_of_nil in Hy.
  - destruct (strict_equals y x) eqn:E.
    + right. split; [lia|]. exists y. split; [constructor|done].
    + destruct (IH (i + 1)%Z ltac:(lia)) as [[-> Hn]|[Hle (z & Hz & Hzx)]].
      * left. split; [done|]. intros (z & Hz & Hzx).
        apply elem_of_cons in Hz as [->|Hz]; [congruence|].
        apply Hn. by exists z.
      * right. split; [lia|]. exists z. split; [by constructor|done].
Qed.

Lemma indexOf_not_found l x : indexOf l x = (-1)%Z ↔ ¬ includes l x.
Proof.
  unfold indexOf.
  destruct (indexOf_from_spec 0%Z l x ltac:(lia)) as [[-> Hn]|[Hle Hin]].
  - tauto.
  - split; [lia|tauto].
Qed.

(** The world after lines 29-54: a new function object, and the
    settings with their [edit] field pointing to it. *)
Lemma wrap_edit_run (w : World) (settings : loc) (o : object) (c : closure) :
  heap w !! settings = Some o →
  (wrapped <- newClosure c ;;
   _ <- setProp settings "edit" (VRef wrapped) ;;
   ret (VRef settings)) w =
  (Ok (VRef settings),
   {| blockTypes := blockTypes w;
      heap := <[settings :=
                  Object (<["edit" := VRef (fresh (dom (heap w)))]> (own o))
                         (code o)]>
                (<[fresh (dom (heap w)) := Object ∅ (Some c)]> (heap w)) |}).
Proof.
  intros Ho.
  assert (Hne : fresh (dom (heap w)) ≠ settings).
  { intros E. apply (is_fresh (dom (heap w))). rewrite E.
    apply elem_of_dom. eauto. }
  unfold bind, newClosure, setProp, modify, ret. simpl.
  by rewrite lookup_insert_ne, Ho.
Qed.

(** C9.  [SearchReplaceToolbarIcon] only ever touches the [edit] field
    of an eligible block.  Let [settings] be a settings object and
    [allowed] what [getAllowedBlocks()] returns.  If the settings' name is
    not in [allowed], the same object comes back and the world is
    untouched.  If it is, the same object comes back; its [edit] field now
    refers to a newly allocated function that wraps the previous [edit];
    every other field of the settings, and every other object that
    existed, is unchanged. *)
Theorem SearchReplaceToolbarIcon_frame (hooks : Hooks) (w : World)
  (settings : loc) (allowed : list value) :
  settings ∈ dom (heap w) →
  getAllowedBlocks hooks w = (Ok allowed, w) →
  (¬ includes allowed (default VUndefined (own_prop w settings "name")) →
   SearchReplaceToolbarIcon hooks settings w = (Ok (VRef settings), w)) ∧
  (includes allowed (default VUndefined (own_prop w settings "name")) →
   ∃ (w' : World) (wrapped : loc),
     SearchReplaceToolbarIcon hooks settings w = (Ok (VRef settings), w') ∧
     blockTypes w' = blockTypes w ∧
     (wrapped ∉ dom (heap w)) ∧
     own_prop w' settings "edit" = Some (VRef wrapped) ∧
     heap w' !! wrapped =
       Some (Object ∅ (Some (ToolbarEdit
               (default VUndefined (own_prop w settings "edit"))))) ∧
     (∀ k, k ≠ "edit" → own_prop w' settings k = own_prop w settings k) ∧
     code <$> heap w' !! settings = code <$> heap w !! settings ∧
     (∀ l, l ∈ dom (heap w) → l ≠ settings → heap w' !! l = heap w !! l)).
Proof.
  intros Hdom Hallowed.
  assert (Hrun : SearchReplaceToolbarIcon hooks settings w =
    (if bool_decide (indexOf allowed
          (default VUndefined (own_prop w settings "name")) = (-1)%Z)
     then ret (VRef settings)
     else wrapped <- newClosure (ToolbarEdit
                       (default VUndefined (own_prop w settings "edit"))) ;;
          _ <- setProp settings "edit" (VRef wrapped) ;;
          ret (VRef settings)) w).
  { unfold SearchReplaceToolbarIcon.
    erewrite bind_ok by reflexivity. erewrite bind_ok by reflexivity.
    by erewrite bind_ok by exact Hallowed. }
  rewrite Hrun. split; intros Hin.
  - apply indexOf_not_found in Hin. by rewrite bool_decide_eq_true_2.
  - rewrite bool_decide_eq_false_2 by (by rewrite indexOf_not_found; tauto).
    pose proof (is_fresh (dom (heap w))) as Hfresh.
    apply elem_of_dom in Hdom as [o Ho].
    rewrite (wrap_edit_run _ _ _ _ Ho).
    set (wrapped := fresh (dom (heap w))) in *.
    assert (Hne : wrapped ≠ settings).
    { intros E. apply Hfresh. rewrite E. apply elem_of_dom. eauto. }
    eexists _, wrapped. split; [reflexivity|].
    unfold own_prop. cbn [blockTypes heap].
    rewrite lookup_insert_eq, lookup_insert_ne, lookup_insert_eq, Ho by done.
    cbn [own code mbind option_bind fmap option_fmap option_map].
    rewrite lookup_insert_eq.
    repeat split; try done.
    + intros k Hk. by rewrite lookup_insert_ne.
    + intros l Hl Hls. rewrite !lookup_insert_ne; [done| |done].
      intros <-. done.
Qed.

Lemma SearchReplaceToolbarIcon_frame_witness :
  SearchReplaceToolbarIcon no_hooks 3%positive settings_world =
    (Ok (VRef 3%positive), settings_world) ∧
  ∃ w', SearchReplaceToolbarIcon no_hooks 1%positive settings_world =
          (Ok (VRef 1%positive), w') ∧
        own_prop w' 1%positive "title" = Some (VStr "Paragraph") ∧
        own_prop w' 1%positive "edit" = Some (VRef 4%positive) ∧
        heap w' !! 3%positive = heap settings_world !! 3%positive.
Proof.
  split.
  - apply (SearchReplaceToolbarIcon_frame no_hooks settings_world 3%positive
             [VStr "core/paragraph"; VUndefined]).
    + apply elem_of_dom. eexists. reflexivity.
    + reflexivity.
    + intros (y & Hy & Heq). apply list_elem_of_In in Hy. simpl in Hy.
      by destruct Hy as [<-|[<-|[]]].
  - destruct (SearchReplaceToolbarIcon_frame no_hooks settings_world 1%positive
                [VStr "core/paragraph"; VUndefined]) as [_ Hyes].
    + apply elem_of_dom. eexists. reflexivity.
    + reflexivity.
    + destruct Hyes as (w' & wrapped & Hrun & _ & _ & Hedit & _ & Hother & _ & Hobj).
      * exists (VStr "core/paragraph"). split; [constructor|reflexivity].
      * exists w'. split; [exact Hrun|]. split; [by rewrite Hother|].
        split; [|apply Hobj; [apply elem_of_dom; eexists; reflexivity|done]].
        vm_compute in Hrun. injection Hrun as <-. reflexivity.
Defined.

(** ** [getEditorRoot]: a bounded wait *)

Section EditorRoot.

Variable Number : string → number.
Variable wpVersion : string.
Variable documents : nat → Document.

Abbreviation sel := (selector Number wpVersion).
Abbreviation run := (getEditorRoot Number wpVersion documents).

Lemma run_succ n : run (S n) = fire sel (documents (S n)) (run n).
Proof. reflexivity. Qed.

Lemma onInterval_miss document p :
  document sel = None → outcome p = Pending →
  onInterval sel document p =
    if bool_decide (elapsedTime p + 100 > 60000)%Z
    then Poller (elapsedTime p + 100) true (Rejected timeout_error)
    else Poller (elapsedTime p + 100) (cleared p) Pending.
Proof.
  intros Hdoc Hout. unfold onInterval. rewrite Hdoc. cbn [elapsedTime].
  unfold interval. change (600 * 100)%Z with 60000%Z.
  rewrite Hout. by case_bool_decide.
Qed.

Lemma onInterval_hit document p root :
  document sel = Some root → outcome p = Pending →
  onInterval sel document p =
    Poller (elapsedTime p + 100) true (Resolved root).
Proof.
  intros Hdoc Hout. unfold onInterval. rewrite Hdoc.
  unfold resolve, clearInterval, reject, interval. cbn. rewrite Hout. cbn.
  by case_bool_decide.
Qed.

(** While the interval is live, the promise is pending and the counter
    is [100] times the number of runs so far. *)
Lemma run_live n :
  cleared (run n) = false →
  outcome (run n) = Pending ∧ elapsedTime (run n) = (100 * Z.of_nat n)%Z.
Proof.
  induction n as [|n IH]; [done|].
  rewrite run_succ. unfold fire.
  destruct (cleared (run n)) eqn:Hc; [by rewrite Hc|].
  destruct IH as [Hout Htime]; [done|].
  destruct (documents (S n) sel) as [root|] eqn:Hdoc.
  - by rewrite (onInterval_hit _ _ root).
  - rewrite onInterval_miss by done.
    case_bool_decide; [done|]. cbn. intros _. split; [done|lia].
Qed.

(** Once cleared, nothing runs any more. *)
Lemma run_cleared k n :
  cleared (run k) = true → k ≤ n → run n = run k.
Proof.
  intros Hc. induction 1 as [|n _ IH]; [done|].
  rewrite run_succ. unfold fire. by rewrite IH, Hc.
Qed.

Lemma run_bound : cleared (run 601) = true.
Proof.
  rewrite run_succ. unfold fire.
  destruct (cleared (run 600)) eqn:Hc; [by rewrite Hc|].
  destruct (run_live 600 Hc) as [Hout Htime].
  destruct (documents 601 sel) as [root|] eqn:Hdoc.
  - by rewrite (onInterval_hit _ _ root).
  - rewrite onInterval_miss by done. rewrite Htime.
    by rewrite bool_decide_eq_true_2 by lia.
Qed.

Lemma run_no_match n :
  (∀ k, documents k sel = None) → n ≤ 600 →
  run n = Poller (100 * Z.of_nat n) false Pending.
Proof.
  intros Hnone. induction n as [|n IH]; intros Hn; [done|].
  rewrite run_succ, IH by lia. unfold fire. cbn [cleared].
  rewrite onInterval_miss by done. cbn [elapsedTime cleared].
  rewrite bool_decide_eq_false_2 by lia. f_equal. lia.
Qed.

(** C4.  [getEditorRoot] polls every 100 ms and gives up after a fixed
    number of polls.  Whatever the document does, the interval is cleared
    by the 601st poll, so nothing runs after it.  If the selector never
    matches, the promise is pending through poll 600 and, at poll 601,
    when the elapsed time (60100 ms) first exceeds 600 intervals, it is
    rejected with an [Error] and the interval is cleared, for good.  If
    the selector matches at a poll that runs, the interval is cleared and
    the promise is resolved with the element found, for good. *)
Theorem getEditorRoot_bounded :
  (∀ n, 601 ≤ n → cleared (run n) = true) ∧
  ((∀ k, documents k sel = None) →
   (∀ n, n ≤ 600 → run n = Poller (100 * Z.of_nat n) false Pending) ∧
   (∀ n, 601 ≤ n → run n = Poller 60100 true (Rejected timeout_error))) ∧
  (∀ k root,
      cleared (run k) = false →
      documents (S k) sel = Some root →
      ∀ n, k < n →
           run n = Poller (100 * Z.of_nat (S k)) true (Resolved root)).
Proof.
  split; [|split].
  - intros n Hn. by rewrite (run_cleared 601 n run_bound Hn), run_bound.
  - intros Hnone. split; [intros n; by apply run_no_match|].
    assert (H601 : run 601 = Poller 60100 true (Rejected timeout_error)).
    { rewrite run_succ, run_no_match by (done || lia). unfold fire.
      cbn [cleared]. rewrite onInterval_miss by done. reflexivity. }
    intros n Hn. by rewrite (run_cleared 601 n), H601 by (by rewrite ?H601).
  - intros k root Hlive Hdoc n Hn.
    assert (Hk : run (S k) = Poller (100 * Z.of_nat (S k)) true (Resolved root)).
    { destruct (run_live k Hlive) as [Hout Htime].
      rewrite run_succ. unfold fire. rewrite Hlive.
      rewrite (onInterval_hit _ _ root) by done. f_equal. lia. }
    by rewrite (run_cleared (S k) n), Hk by (by rewrite ?Hk || lia).
Qed.

End EditorRoot.

(** ** Version numbers *)

Lemma reduce_from_positional (N i : nat) (values : list Z) (acc : Z) :
  N = i + length values →
  reduce_from
    (λ sum value index,
       num_add sum (num_mul value (pow10 (Z.of_nat N - 1 - Z.of_nat index)%Z)))
    i (map Num values) (Num acc)
  = Num (acc + positional_value values).
Proof.
  revert i acc. induction values as [|v rest IH]; intros i acc HN; simpl.
  - f_equal. lia.
  - unfold pow10 at 1. cbn [num_mul num_add].
    rewrite IH by (simpl in HN; lia). f_equal.
    replace (Z.of_nat N - 1 - Z.of_nat i)%Z with (Z.of_nat (length rest))
      by (simpl in HN; lia).
    lia.
Qed.

Lemma getNumberToBase10_positional (values : list Z) :
  getNumberToBase10 (map Num values) = Num (positional_value values).
Proof.
  unfold getNumberToBase10, reduce. rewrite length_map.
  by rewrite reduce_from_positional.
Qed.

Lemma positional_value_bound (values : list Z) :
  Forall digit values →
  (0 ≤ positional_value values < 10 ^ Z.of_nat (length values))%Z.
Proof.
  unfold digit. induction 1 as [|v rest Hv _ IH]; simpl; [lia|].
  rewrite Nat2Z.inj_succ, Z.pow_succ_r by lia.
  assert (0 < 10 ^ Z.of_nat (length rest))%Z by (apply Z.pow_pos_nonneg; lia).
  nia.
Qed.

(** For up to 15 digits the value is a safe integer: the doubles of the
    source compute it exactly. *)
Lemma positional_value_safe (values : list Z) :
  Forall digit values → length values ≤ 15 →
  (0 ≤ positional_value values < 2 ^ 53)%Z.
Proof.
  intros Hd Hlen. pose proof (positional_value_bound values Hd) as [H0 H1].
  split; [done|]. eapply Z.lt_le_trans; [exact H1|].
  transitivity (10 ^ 15)%Z; [|done].
  apply Z.pow_le_mono_r; lia.
Qed.

Lemma positional_value_compare (a b : list Z) :
  length a = length b → Forall digit a → Forall digit b →
  (positional_value a ?= positional_value b)%Z = lex_compare a b.
Proof.
  intros Hlen Ha. revert b Hlen.
  induction Ha as [|x a Hx Ha IH]; intros [|y b] Hlen Hb; try done.
  apply Forall_cons in Hb as [Hy Hb]. simpl in Hlen.
  injection Hlen as Hlen. simpl. rewrite <- Hlen.
  pose proof (positional_value_bound a Ha) as Ba.
  pose proof (positional_value_bound b Hb) as Bb.
  rewrite <- Hlen in Bb. unfold digit in *.
  set (P := (10 ^ Z.of_nat (length a))%Z) in *.
  destruct (Z.compare_spec x y) as [->|Hlt|Hgt].
  - rewrite Z.add_compare_mono_l. by apply IH.
  - apply Z.compare_lt_iff. nia.
  - apply Z.compare_gt_iff. nia.
Qed.

Lemma version_compare_same_length (a b : list Z) :
  length a = length b → version_compare a b = lex_compare a b.
Proof.
  intros Hlen. unfold version_compare, pad. rewrite <- Hlen, Nat.max_id.
  by rewrite Nat.sub_diag, !app_nil_r.
Qed.

Lemma positional_value_split (front back : list Z) :
  positional_value (front ++ back) =
    (positional_value front * 10 ^ Z.of_nat (length back)
     + positional_value back)%Z.
Proof.
  induction front as [|x front IH]; simpl; [lia|].
  rewrite IH, length_app, Nat2Z.inj_add, Z.pow_add_r by lia. lia.
Qed.

Lemma positional_value_nonneg (values : list Z) :
  Forall (λ v, (0 ≤ v)%Z) values → (0 ≤ positional_value values)%Z.
Proof.
  induction 1 as [|v rest Hv _ IH]; simpl; [lia|].
  assert (0 ≤ 10 ^ Z.of_nat (length rest))%Z by (apply Z.pow_nonneg; lia).
  nia.
Qed.

(** On safe components every partial sum the [reduce] goes through, and
    every term it adds, lies between 0 and the final value. *)
Lemma safe_partial_sums (front back : list Z) :
  safe_components (front ++ back) →
  (0 ≤ positional_value front * 10 ^ Z.of_nat (length back)
     ≤ positional_value (front ++ back) ≤ 2 ^ 53)%Z.
Proof.
  intros (Hpos & _ & Hmax). apply Forall_app in Hpos as [Hf Hb].
  pose proof (positional_value_nonneg front Hf).
  pose proof (positional_value_nonneg back Hb).
  assert (0 ≤ 10 ^ Z.of_nat (length back))%Z by (apply Z.pow_nonneg; lia).
  rewrite positional_value_split in *. nia.
Qed.

(** C10, as stated, fails: with the same number of components the
    comparison need not be numeric version ordering.  System ["4.9.26"]
    has value 516 and ["5.0.0"] has value 500, so
    [isWpVersion("5.0.0")] is true on a system that is older. *)
Lemma isWpVersion_same_length_counterexample :
  map decimalNumber (split "." "4.9.26") = map Num [4; 9; 26]%Z ∧
  map decimalNumber (split "." "5.0.0") = map Num [5; 0; 0]%Z ∧
  getNumberToBase10 (map Num [4; 9; 26]%Z) = Num 516 ∧
  getNumberToBase10 (map Num [5; 0; 0]%Z) = Num 500 ∧
  isWpVersion decimalNumber "4.9.26" "5.0.0" = true ∧
  version_compare [4; 9; 26]%Z [5; 0; 0]%Z = Lt.
Proof. repeat split. Qed.

(** C10, amended.  On safe components (none negative, at most 23 of
    them, positional value at most [2^53]) [getNumberToBase10] returns
    the exact sum of [v_i * 10^(n-1-i)] ([5;6;1] gives [561]), and
    [isWpVersion(v)] is true iff the system version's value is not less
    than the argument's.  When moreover both versions have the same
    number of components and every component is a single digit, this is
    numeric version ordering.  With different numbers of components it
    is not: system ["6.6"] against ["6.6.0"] compares 66 with 660 and
    answers false, although the two versions are numerically equal. *)
Theorem isWpVersion_positional (Number : string → number) :
  (∀ values : list Z,
      safe_components values →
      getNumberToBase10 (map Num values) = Num (positional_value values)) ∧
  getNumberToBase10 [Num 5; Num 6; Num 1] = Num 561 ∧
  (∀ (wpVersion version : string) (sysValues argValues : list Z),
      map Number (split "." wpVersion) = map Num sysValues →
      map Number (split "." version) = map Num argValues →
      safe_components sysValues → safe_components argValues →
      (isWpVersion Number wpVersion version = true ↔
       ¬ (positional_value sysValues < positional_value argValues)%Z) ∧
      (length sysValues = length argValues →
       Forall digit sysValues → Forall digit argValues →
       (isWpVersion Number wpVersion version = true ↔
        version_compare sysValues argValues ≠ Lt))) ∧
  (Number "6" = Num 6 → Number "0" = Num 0 →
   getNumberToBase10 (map Number (split "." "6.6")) = Num 66 ∧
   getNumberToBase10 (map Number (split "." "6.6.0")) = Num 660 ∧
   isWpVersion Number "6.6" "6.6.0" = false ∧
   version_compare [6; 6]%Z [6; 6; 0]%Z = Eq).
Proof.
  split; [intros values _; apply getNumberToBase10_positional|].
  split; [reflexivity|]. split.
  - intros wpVersion version sysValues argValues Hsys Harg _ _.
    assert (Hiff : isWpVersion Number wpVersion version = true ↔
              ¬ (positional_value sysValues < positional_value argValues)%Z).
    { unfold isWpVersion. rewrite Hsys, Harg, !getNumberToBase10_positional.
      unfold num_lt. rewrite negb_true_iff. apply bool_decide_eq_false. }
    split; [exact Hiff|].
    intros Hlen Hs Ha. rewrite Hiff, version_compare_same_length by done.
    rewrite <- positional_value_compare by done.
    by rewrite Z.compare_lt_iff.
  - intros H6 H0. unfold isWpVersion. cbn [split Ascii.eqb Bool.eqb map].
    rewrite H6, H0. by vm_compute.
Qed.

Lemma safe_components_small (values : list Z) :
  Forall digit values → length values ≤ 15 → safe_components values.
Proof.
  intros Hd Hlen. split; [|split].
  - eapply Forall_impl; [exact Hd|]. unfold digit. intros v Hv. lia.
  - lia.
  - pose proof (positional_value_safe values Hd Hlen). lia.
Qed.

Lemma isWpVersion_positional_witness :
  isWpVersion decimalNumber "6.6" "6.6.0" = false ∧
  isWpVersion decimalNumber "6.6.1" "6.6.0" = true.
Proof.
  destruct (isWpVersion_positional decimalNumber)
    as (_ & _ & Hcompare & Hexample).
  split.
  - by destruct (Hexample eq_refl eq_refl) as (_ & _ & Hfalse & _).
  - destruct (Hcompare "6.6.1" "6.6.0" [6; 6; 1]%Z [6; 6; 0]%Z
                eq_refl eq_refl) as [Hiff _].
    + apply safe_components_small; [|simpl; lia].
      repeat constructor; unfold digit; lia.
    + apply safe_components_small; [|simpl; lia].
      repeat constructor; unfold digit; lia.
    + apply Hiff. vm_compute. by intros [=].
Defined.

(** With a component above 9 the positional value is no version order
    even between versions of the same length: ["6.10"] and ["7.0"] both
    have value 70. *)
Lemma isWpVersion_two_digit_component :
  isWpVersion decimalNumber "6.10" "7.0" = true ∧
  version_compare [6; 10]%Z [7; 0]%Z = Lt.
Proof. split; reflexivity. Qed.

(** The toolbar never appears: the wait ends at the 601st poll. *)
Example getEditorRoot_gives_up :
  getEditorRoot decimalNumber "6.7.1" (λ _ _, None) 600
    = Poller 60000 false Pending ∧
  getEditorRoot decimalNumber "6.7.1" (λ _ _, None) 601
    = Poller 60100 true (Rejected timeout_error) ∧
  getEditorRoot decimalNumber "6.7.1" (λ _ _, None) 1000
    = Poller 60100 true (Rejected timeout_error).
Proof. repeat split; vm_compute; reflexivity. Qed.

(** The toolbar appears at the third poll. *)
Example getEditorRoot_third_poll :
  getEditorRoot decimalNumber "6.7.1"
    (λ k sel, if bool_decide (3 ≤ k ∧ sel = ".editor-header__toolbar")
              then Some 7%positive else None) 5
  = Poller 300 true (Resolved 7%positive).
Proof. reflexivity. Qed.

(** ** The match locator *)

Lemma starts_with_take (query text : chars) :
  starts_with query text = true → take (length query) text = query.
Proof.
  revert text. induction query as [|c query IH]; intros [|d text] H;
    simpl in *; try done.
  apply andb_true_iff in H as [Hc H]. apply Ascii.eqb_eq in Hc as ->.
  by rewrite IH.
Qed.

Lemma locate_found (query rest : chars) (offset i : nat) :
  locate query rest offset = Some i →
  offset ≤ i ∧ take (length query) (drop (i - offset) rest) = query.
Proof.
  revert offset. induction rest as [|d rest IH]; intros offset; simpl.
  - destruct (starts_with query []) eqn:E; [|done].
    intros [= <-]. rewrite Nat.sub_diag. split; [done|].
    by apply starts_with_take.
  - destruct (starts_with query (d :: rest)) eqn:E.
    + intros [= <-]. rewrite Nat.sub_diag. split; [done|].
      by apply starts_with_take.
    + intros H. apply IH in H as [Hle H]. split; [lia|].
      by replace (i - offset) with (S (i - S offset)) by lia.
Qed.

Lemma well_spaced_weaken pos pos' matches :
  pos' ≤ pos → well_spaced pos matches → well_spaced pos' matches.
Proof. destruct matches as [|[o l] rest]; simpl; [done|]. intuition lia. Qed.

Lemma well_spaced_after pos matches j o l :
  well_spaced pos matches → matches !! j = Some (o, l) → pos ≤ o.
Proof.
  revert pos j. induction matches as [|[o' l'] rest IH]; intros pos j; [done|].
  simpl. intros (Hle & Hl & Hrest). destruct j as [|j]; simpl.
  - by intros [= -> ->].
  - intros Hj. specialize (IH _ _ Hrest Hj). lia.
Qed.

Lemma well_spaced_pairwise pos matches i j o1 l1 o2 l2 :
  well_spaced pos matches → i < j →
  matches !! i = Some (o1, l1) → matches !! j = Some (o2, l2) →
  o1 + l1 ≤ o2 ∧ o1 < o2.
Proof.
  revert pos i j. induction matches as [|[o l] rest IH]; intros pos i j; [done|].
  simpl. intros (Hle & Hl & Hrest) Hij. destruct i as [|i], j as [|j];
    simpl; try lia.
  - intros [= -> ->] Hj. pose proof (well_spaced_after _ _ _ _ _ Hrest Hj). lia.
  - apply (IH _ _ _ Hrest). lia.
Qed.

Lemma scan_spec (text query : chars) (pos : nat) :
  well_spaced pos (scan text query pos) ∧
  Forall (λ m, m.2 = length query ∧ m.1 + m.2 ≤ length text ∧
               take m.2 (drop m.1 text) = query)
    (scan text query pos).
Proof.
  funelim (scan text query pos); try (split; [exact I|constructor]).
  destruct H as [Hspaced Hall].
  pose proof (locate_range _ _ _ _ found) as [Hpos Hend].
  pose proof (locate_found _ _ _ _ found) as [_ Htake].
  rewrite length_drop in Hend. rewrite drop_drop in Htake.
  replace (pos + (i - pos)) with i in Htake by lia.
  split.
  - simpl. split; [done|]. split; [lia|done].
  - constructor; [|done]. simpl. split; [done|]. split; [lia|done].
Qed.

Lemma length_list_ascii_of_string (s : string) :
  length (list_ascii_of_string s) = String.length s.
Proof. induction s as [|c s IH]; simpl; [done|by rewrite IH]. Qed.

Lemma substring_chars (s : string) (offset len : nat) :
  list_ascii_of_string (substring offset len s) =
  take len (drop offset (list_ascii_of_string s)).
Proof.
  revert offset len. induction s as [|c s IH]; intros [|offset] [|len];
    simpl; rewrite ?IH; done.
Qed.

Lemma string_of_chars_inj (s1 s2 : string) :
  list_ascii_of_string s1 = list_ascii_of_string s2 → s1 = s2.
Proof.
  intros H. rewrite <- (string_of_list_ascii_of_string s1),
    <- (string_of_list_ascii_of_string s2). by rewrite H.
Qed.

(** C7.  For every text [T] and non-empty query [Q], the matches of
    [findAll(T, Q, true)] come in strictly ascending offsets, no two of
    them overlap (each ends at or before the start of every later one),
    and every match [(offset, length)] lies within [T], has the length of
    [Q] and satisfies [T[offset : offset+length] = Q]. *)
Theorem findAll_case_sensitive (T Q : string) :
  Q ≠ "" →
  (∀ i j o1 l1 o2 l2,
      i < j →
      findAll T Q true !! i = Some (o1, l1) →
      findAll T Q true !! j = Some (o2, l2) →
      o1 + l1 ≤ o2 ∧ o1 < o2) ∧
  (∀ o l,
      (o, l) ∈ findAll T Q true →
      l = String.length Q ∧ o + l ≤ String.length T ∧ substring o l T = Q).
Proof.
  intros HQ. unfold findAll. rewrite bool_decide_eq_false_2 by done.
  cbn [id].
  destruct (scan_spec (list_ascii_of_string T) (list_ascii_of_string Q) 0)
    as [Hspaced Hall].
  split.
  - intros i j o1 l1 o2 l2 Hij Hi Hj.
    by apply (well_spaced_pairwise _ _ _ _ _ _ _ _ Hspaced Hij Hi Hj).
  - intros o l Hin. rewrite Forall_forall in Hall.
    destruct (Hall _ Hin) as (Hl & Hend & Htake). simpl in *.
    rewrite !length_list_ascii_of_string in *.
    split; [done|]. split; [done|].
    apply string_of_chars_inj. by rewrite substring_chars.
Qed.

Lemma findAll_case_sensitive_witness :
  findAll "the cat sat on a cat" "cat" true = [(4, 3); (17, 3)] ∧
  substring 17 3 "the cat sat on a cat" = "cat".
Proof.
  split; [reflexivity|].
  destruct (findAll_case_sensitive "the cat sat on a cat" "cat")
    as [_ Hsub]; [done|].
  apply (Hsub 17 3).
  change (findAll "the cat sat on a cat" "cat" true) with [(4, 3); (17, 3)].
  by repeat constructor.
Defined.

(** C8.  An empty query has no match, in any text and with either
    setting of the case flag. *)
Theorem findAll_empty_query (T : string) (caseSensitive : bool) :
  findAll T "" caseSensitive = [].
Proof. unfold findAll. by rewrite bool_decide_eq_true_2. Qed.

(** Further checks of the model against section 8 of the specification. *)
Example findAll_case_insensitive :
  findAll "FooBar" "foo" false = [(0, 3)].
Proof. reflexivity. Qed.

Example findAll_leftmost_non_overlapping :
  findAll "aaaaa" "aa" true = [(0, 2); (2, 2)].
Proof. reflexivity. Qed.

Example findAll_whole_text : findAll "cat" "cat" true = [(0, 3)].
Proof. reflexivity. Qed.

Example findAll_query_longer : findAll "cat" "cats" true = [].
Proof. reflexivity. Qed.

(* ===================================================================== *)
(** * Part IV: further properties of the code                             *)
(* ===================================================================== *)

(** ** [getNumberToBase10] and [isWpVersion] beyond integers *)

Lemma num_lt_irrefl (a : number) : num_lt a a = false.
Proof. destruct a as [|z]; simpl; [done|]. apply bool_decide_eq_false. lia. Qed.

Lemma reduce_from_NaN_acc (g : nat → number) (i : nat) (l : list number) :
  reduce_from (λ sum value index, num_add sum (num_mul value (g index)))
    i l NaN = NaN.
Proof. revert i. induction l as [|x l IH]; intros i; simpl; [done|apply IH]. Qed.

Lemma reduce_from_has_NaN (g : nat → number) (i : nat) (l : list number)
  (acc : number) :
  NaN ∈ l →
  reduce_from (λ sum value index, num_add sum (num_mul value (g index)))
    i l acc = NaN.
Proof.
  revert i acc. induction l as [|x l IH]; intros i acc Hin.
  - by apply elem_of_nil in Hin.
  - simpl. apply elem_of_cons in Hin as [<-|Hin].
    + replace (num_add acc (num_mul NaN (g i))) with NaN
        by (by destruct acc).
      apply reduce_from_NaN_acc.
    + by apply IH.
Qed.

Lemma getNumberToBase10_NaN (values : list number) :
  NaN ∈ values → getNumberToBase10 values = NaN.
Proof.
  intros Hin. unfold getNumberToBase10, reduce.
  by apply (reduce_from_has_NaN
              (λ index, pow10 (Z.of_nat (length values) - 1 - Z.of_nat index)%Z)).
Qed.

(** X1.  One component that [Number] cannot read poisons the whole
    value: [getNumberToBase10] is [NaN] as soon as one entry is [NaN], and
    [isWpVersion] then answers [true], whichever of the two versions the
    component belongs to and whatever the other version is. *)
Theorem isWpVersion_non_numeric (Number : string → number)
  (wpVersion version : string) :
  NaN ∈ map Number (split "." wpVersion) ∨
  NaN ∈ map Number (split "." version) →
  (getNumberToBase10 (map Number (split "." wpVersion)) = NaN ∨
   getNumberToBase10 (map Number (split "." version)) = NaN) ∧
  isWpVersion Number wpVersion version = true.
Proof.
  intros H. unfold isWpVersion.
  destruct H as [H|H]; apply getNumberToBase10_NaN in H; rewrite H.
  - split; [by left|done].
  - split; [by right|].
    by destruct (getNumberToBase10 (map Number (split "." wpVersion))).
Qed.

Lemma isWpVersion_non_numeric_witness :
  isWpVersion decimalNumber "5.0-beta1" "6.6.0" = true.
Proof.
  apply (isWpVersion_non_numeric decimalNumber "5.0-beta1" "6.6.0").
  left. apply list_elem_of_In. vm_compute. tauto.
Defined.

(** ** One more component is one more decimal place *)

Lemma positional_value_app (values : list Z) (v : Z) :
  positional_value (values ++ [v]) = (10 * positional_value values + v)%Z.
Proof.
  induction values as [|x values IH]; simpl; [lia|].
  rewrite IH, length_app. simpl.
  replace (Z.of_nat (length values + 1)) with (Z.succ (Z.of_nat (length values)))
    by lia.
  rewrite Z.pow_succ_r by lia. lia.
Qed.

(** X2.  On safe components (none negative, at most 23, value at most
    [2^53]) appending a component shifts the value by one decimal place:
    the value of [values ++ [v]] is ten times the value of [values], plus
    [v].  So a system version with a positive value never satisfies
    [isWpVersion] against itself with [".0"] appended. *)
Theorem getNumberToBase10_append (values : list Z) (v : Z) :
  safe_components (values ++ [v]) →
  getNumberToBase10 (map Num (values ++ [v])) =
    num_add (num_mul (Num 10) (getNumberToBase10 (map Num values))) (Num v) ∧
  ∀ (Number : string → number) (wpVersion version : string) (p : Z),
    v = 0%Z →
    map Number (split "." wpVersion) = map Num values →
    map Number (split "." version) = map Num (values ++ [v]) →
    getNumberToBase10 (map Num values) = Num p → (0 < p)%Z →
    isWpVersion Number wpVersion version = false.
Proof.
  intros _.
  assert (Happ : getNumberToBase10 (map Num (values ++ [v])) =
            num_add (num_mul (Num 10) (getNumberToBase10 (map Num values)))
                    (Num v)).
  { rewrite !getNumberToBase10_positional, positional_value_app. done. }
  split; [apply Happ|].
  intros Number wpVersion version p -> Hsys Harg Hp Hpos.
  unfold isWpVersion. rewrite Hsys, Harg, Happ, Hp. simpl.
  rewrite bool_decide_eq_true_2 by lia. done.
Qed.

Lemma getNumberToBase10_append_witness :
  isWpVersion decimalNumber "6.7" "6.7.0" = false.
Proof.
  destruct (getNumberToBase10_append [6; 7]%Z 0%Z) as [_ H].
  - apply safe_components_small; [|simpl; lia].
    repeat constructor; unfold digit; lia.
  - apply (H decimalNumber "6.7" "6.7.0" 67%Z); done.
Defined.

(** X3.  [isWpVersion] compares like an order: every version is up to
    itself; of two versions at least one is up to the other; and the
    comparison is transitive through a middle version whose value is a
    number.  (Through a [NaN] middle it is not: see X1.) *)
Theorem isWpVersion_preorder (Number : string → number) :
  (∀ v, isWpVersion Number v v = true) ∧
  (∀ a b, isWpVersion Number a b = false → isWpVersion Number b a = true) ∧
  (∀ a b c,
      getNumberToBase10 (map Number (split "." b)) ≠ NaN →
      isWpVersion Number a b = true →
      isWpVersion Number b c = true →
      isWpVersion Number a c = true).
Proof.
  unfold isWpVersion. split; [|split].
  - intros v. by rewrite num_lt_irrefl.
  - intros a b.
    destruct (getNumberToBase10 (map Number (split "." a))) as [|x],
             (getNumberToBase10 (map Number (split "." b))) as [|y];
      simpl; try done.
    rewrite !negb_false_iff, !negb_true_iff, bool_decide_eq_true,
      bool_decide_eq_false. lia.
  - intros a b c.
    destruct (getNumberToBase10 (map Number (split "." a))) as [|x],
             (getNumberToBase10 (map Number (split "." b))) as [|y],
             (getNumberToBase10 (map Number (split "." c))) as [|z];
      simpl; try done.
    rewrite !negb_true_iff, !bool_decide_eq_false. lia.
Qed.

(** Through a middle version that is not a number the comparison is not
    transitive. *)
Example isWpVersion_not_transitive :
  isWpVersion decimalNumber "5.0" "6.x" = true ∧
  isWpVersion decimalNumber "6.x" "6.6" = true ∧
  isWpVersion decimalNumber "5.0" "6.6" = false.
Proof. repeat split. Qed.

(** ** Which toolbar selector a system version gets *)

(** X4.  Which selector [getEditorRoot] looks for.  When [Number] reads
    some component of the system version as [NaN], it is the newer
    [.editor-header__toolbar].  When it reads them as safe components
    (none negative, at most 23, value at most [2^53]), it is the newer
    selector exactly when the positional value is at least 660, the value
    of ["6.6.0"], and the older [.edit-post-header__toolbar] otherwise.
    So a system version of two components [a.b], neither negative, with
    [10a + b < 660] gets the older selector. *)
Theorem selector_threshold (Number : string → number) (wpVersion : string) :
  Number "6" = Num 6 → Number "0" = Num 0 →
  (NaN ∈ map Number (split "." wpVersion) →
   selector Number wpVersion = ".editor-header__toolbar") ∧
  (∀ sysValues : list Z,
      map Number (split "." wpVersion) = map Num sysValues →
      safe_components sysValues →
      selector Number wpVersion =
        (if bool_decide (660 ≤ positional_value sysValues)%Z
         then ".editor-header__toolbar" else ".edit-post-header__toolbar")) ∧
  (∀ a b : Z,
      map Number (split "." wpVersion) = [Num a; Num b] →
      (0 ≤ a)%Z → (0 ≤ b)%Z → (10 * a + b < 660)%Z →
      selector Number wpVersion = ".edit-post-header__toolbar").
Proof.
  intros H6 H0.
  assert (Hsel : ∀ sysValues,
    map Number (split "." wpVersion) = map Num sysValues →
    selector Number wpVersion =
    (if bool_decide (660 ≤ positional_value sysValues)%Z
     then ".editor-header__toolbar" else ".edit-post-header__toolbar")).
  { intros sysValues Hsys.
    unfold selector, isWpVersion. rewrite Hsys, getNumberToBase10_positional.
    cbn [split Ascii.eqb Bool.eqb map]. rewrite H6, H0.
    change (getNumberToBase10 [Num 6; Num 6; Num 0]) with (Num 660).
    unfold num_lt.
    destruct (decide (660 ≤ positional_value sysValues)%Z) as [Hge|Hlt].
    - rewrite bool_decide_eq_false_2, bool_decide_eq_true_2 by lia. done.
    - rewrite bool_decide_eq_true_2, bool_decide_eq_false_2 by lia. done. }
  split; [|split].
  - intros Hnan. unfold selector, isWpVersion.
    by rewrite (getNumberToBase10_NaN _ Hnan).
  - intros sysValues Hsys _. by apply Hsel.
  - intros a b Hsys Ha Hb Hab. rewrite (Hsel [a; b] Hsys). simpl.
    rewrite bool_decide_eq_false_2 by lia. done.
Qed.

Lemma selector_threshold_witness :
  selector decimalNumber "6.7" = ".edit-post-header__toolbar" ∧
  selector decimalNumber "6.7.1" = ".editor-header__toolbar" ∧
  selector decimalNumber "6.5-beta1" = ".editor-header__toolbar".
Proof.
  split; [|split].
  - destruct (selector_threshold decimalNumber "6.7" eq_refl eq_refl)
      as (_ & _ & H).
    apply (H 6%Z 7%Z); [done|lia..].
  - destruct (selector_threshold decimalNumber "6.7.1" eq_refl eq_refl)
      as (_ & H & _).
    rewrite (H [6; 7; 1]%Z eq_refl); [done|].
    apply safe_components_small; [|simpl; lia].
    repeat constructor; unfold digit; lia.
  - destruct (selector_threshold decimalNumber "6.5-beta1" eq_refl eq_refl)
      as (H & _ & _).
    apply H. apply list_elem_of_In. vm_compute. tauto.
Defined.

(** ** [getEditorRoot]: what the outcome says about the polls *)

Section EditorRootHistory.

Variable Number : string → number.
Variable wpVersion : string.
Variable documents : nat → Document.

Abbreviation sel' := (selector Number wpVersion).
Abbreviation run' := (getEditorRoot Number wpVersion documents).

(** While the interval is live, every poll so far has missed, and there
    have been at most 600 of them. *)
Lemma run_live_history n :
  cleared (run' n) = false →
  n ≤ 600 ∧ ∀ k, 1 ≤ k ≤ n → documents k sel' = None.
Proof.
  induction n as [|n IH]; [intros _; split; [lia|intros k; lia]|].
  rewrite run_succ. unfold fire.
  destruct (cleared (run' n)) eqn:Hc; [by rewrite Hc|].
  destruct (run_live Number wpVersion documents n Hc) as [Hout Htime].
  destruct IH as [Hn Hmiss]; [done|].
  destruct (documents (S n) sel') as [root|] eqn:Hdoc.
  - by rewrite (onInterval_hit _ _ _ _ root).
  - rewrite onInterval_miss by done. case_bool_decide as Hlate; [done|].
    intros _. split; [lia|]. intros k Hk.
    destruct (decide (k = S n)) as [->|]; [done|apply Hmiss; lia].
Qed.

Lemma run_misses n :
  n ≤ 600 → (∀ k, 1 ≤ k ≤ n → documents k sel' = None) →
  run' n = Poller (100 * Z.of_nat n) false Pending.
Proof.
  induction n as [|n IH]; intros Hn Hmiss; [done|].
  rewrite run_succ, IH by (lia || (intros; apply Hmiss; lia)).
  unfold fire. cbn [cleared].
  rewrite onInterval_miss by (apply Hmiss || done; lia).
  cbn [elapsedTime cleared].
  rewrite bool_decide_eq_false_2 by lia. f_equal. lia.
Qed.

Lemma run_settled n :
  cleared (run' n) = true → outcome (run' n) ≠ Pending.
Proof.
  induction n as [|n IH]; [done|].
  rewrite run_succ. unfold fire.
  destruct (cleared (run' n)) eqn:Hc; [by rewrite Hc|].
  destruct (run_live Number wpVersion documents n Hc) as [Hout Htime].
  destruct (documents (S n) sel') as [root|] eqn:Hdoc.
  - by rewrite (onInterval_hit _ _ _ _ root).
  - rewrite onInterval_miss by done.
    case_bool_decide; simpl; [done|by rewrite Hc].
Qed.

(** X5.  The interval is cleared exactly when the promise is settled;
    the elapsed time is a multiple of 100 ms that never exceeds 60100;
    and while the promise is pending the elapsed time is 100 ms per
    interval, with at most 600 intervals gone. *)
Theorem getEditorRoot_invariant (n : nat) :
  (cleared (getEditorRoot Number wpVersion documents n) = true ↔
   outcome (getEditorRoot Number wpVersion documents n) ≠ Pending) ∧
  (∃ k, k ≤ n ∧ k ≤ 601 ∧
        elapsedTime (getEditorRoot Number wpVersion documents n)
          = (100 * Z.of_nat k)%Z) ∧
  (outcome (getEditorRoot Number wpVersion documents n) = Pending →
   n ≤ 600 ∧
   elapsedTime (getEditorRoot Number wpVersion documents n)
     = (100 * Z.of_nat n)%Z).
Proof.
  assert (Hiff : ∀ m, cleared (run' m) = true ↔ outcome (run' m) ≠ Pending).
  { intros m. split; [apply run_settled|].
    destruct (cleared (run' m)) eqn:Hc; [done|].
    by destruct (run_live Number wpVersion documents m Hc) as [-> _]. }
  assert (Hpending : ∀ m, outcome (run' m) = Pending →
            m ≤ 600 ∧ elapsedTime (run' m) = (100 * Z.of_nat m)%Z).
  { intros m Hout. destruct (cleared (run' m)) eqn:Hc.
    - by apply Hiff in Hc.
    - split; [by apply run_live_history|].
      by apply (run_live Number wpVersion documents). }
  split; [apply Hiff|]. split; [|apply Hpending].
  induction n as [|n IH]; [exists 0; split; [lia|split; [lia|done]]|].
  rewrite run_succ. unfold fire.
  destruct (cleared (run' n)) eqn:Hc.
  - destruct IH as (k & Hk & Hk' & Ht). exists k.
    split; [lia|split; [lia|done]].
  - destruct (run_live Number wpVersion documents n Hc) as [Hout Htime].
    destruct (run_live_history n Hc) as [Hn _].
    exists (S n). split; [done|]. split; [lia|].
    destruct (documents (S n) sel') as [root|] eqn:Hdoc.
    + rewrite (onInterval_hit _ _ _ _ root) by done. simpl. lia.
    + rewrite onInterval_miss by done. case_bool_decide; simpl; lia.
Qed.

(** X6.  The promise settles once: from the first interval at which it
    is resolved or rejected, the whole state stays as it is. *)
Theorem getEditorRoot_settles_once (n m : nat) :
  outcome (getEditorRoot Number wpVersion documents n) ≠ Pending →
  n ≤ m →
  getEditorRoot Number wpVersion documents m
    = getEditorRoot Number wpVersion documents n.
Proof.
  intros Hout Hle. apply run_cleared; [|done].
  destruct (cleared (run' n)) eqn:Hc; [done|].
  by destruct (run_live Number wpVersion documents n Hc) as [? _].
Qed.

(** X7.  The promise is pending after [n] intervals exactly when [n] is
    at most 600 and none of the [n] polls matched. *)
Theorem getEditorRoot_pending_iff (n : nat) :
  outcome (getEditorRoot Number wpVersion documents n) = Pending ↔
  n ≤ 600 ∧ ∀ k, 1 ≤ k ≤ n → documents k (selector Number wpVersion) = None.
Proof.
  split.
  - intros Hout. apply run_live_history.
    destruct (cleared (run' n)) eqn:Hc; [|done].
    by apply run_settled in Hc.
  - intros [Hn Hmiss]. by rewrite run_misses.
Qed.

(** X8.  A resolved promise holds the element of the first poll that
    matched, and that poll is one of the first 601. *)
Theorem getEditorRoot_resolved_first_match (n : nat) (root : element) :
  outcome (getEditorRoot Number wpVersion documents n) = Resolved root →
  ∃ k, 1 ≤ k ≤ n ∧ k ≤ 601 ∧
       documents k (selector Number wpVersion) = Some root ∧
       ∀ j, 1 ≤ j < k → documents j (selector Number wpVersion) = None.
Proof.
  induction n as [|n IH]; [done|].
  rewrite run_succ. unfold fire.
  destruct (cleared (run' n)) eqn:Hc.
  - intros H. destruct (IH H) as (k & Hk & Hrest). exists k. split; [lia|done].
  - destruct (run_live Number wpVersion documents n Hc) as [Hout Htime].
    destruct (run_live_history n Hc) as [Hn Hmiss].
    destruct (documents (S n) sel') as [r|] eqn:Hdoc.
    + rewrite (onInterval_hit _ _ _ _ r) by done. intros [= ->].
      exists (S n). split; [lia|]. split; [lia|]. split; [done|].
      intros j Hj. apply Hmiss. lia.
    + rewrite onInterval_miss by done. by case_bool_decide.
Qed.

(** X9.  The promise is only ever rejected by the timeout: a rejected
    promise carries the timeout error, at least 601 intervals have gone,
    and none of the 601 polls matched. *)
Theorem getEditorRoot_rejected_only_on_timeout (n : nat) (e : error) :
  outcome (getEditorRoot Number wpVersion documents n) = Rejected e →
  e = timeout_error ∧ 601 ≤ n ∧
  ∀ k, 1 ≤ k ≤ 601 → documents k (selector Number wpVersion) = None.
Proof.
  induction n as [|n IH]; [done|].
  rewrite run_succ. unfold fire.
  destruct (cleared (run' n)) eqn:Hc.
  - intros H. destruct (IH H) as (He & Hn & Hmiss). split; [done|].
    split; [lia|done].
  - destruct (run_live Number wpVersion documents n Hc) as [Hout Htime].
    destruct (run_live_history n Hc) as [Hn Hmiss].
    destruct (documents (S n) sel') as [r|] eqn:Hdoc.
    + by rewrite (onInterval_hit _ _ _ _ r).
    + rewrite onInterval_miss by done. case_bool_decide as Hlate; [|done].
      intros [= <-]. split; [done|]. split; [lia|].
      intros k Hk. destruct (decide (k = S n)) as [->|]; [done|].
      apply Hmiss. lia.
Qed.

End EditorRootHistory.

Lemma getEditorRoot_settles_once_witness :
  getEditorRoot decimalNumber "6.7.1" toolbar_from_third_poll 10 =
  Poller 300 true (Resolved 7%positive).
Proof.
  rewrite (getEditorRoot_settles_once decimalNumber "6.7.1"
             toolbar_from_third_poll 3 10); [reflexivity|by vm_compute|lia].
Defined.

Lemma getEditorRoot_resolved_first_match_witness :
  ∃ k, 1 ≤ k ≤ 5 ∧ k ≤ 601 ∧
       toolbar_from_third_poll k (selector decimalNumber "6.7.1")
         = Some 7%positive ∧
       ∀ j, 1 ≤ j < k →
            toolbar_from_third_poll j (selector decimalNumber "6.7.1") = None.
Proof.
  apply (getEditorRoot_resolved_first_match decimalNumber "6.7.1"
           toolbar_from_third_poll 5 7%positive).
  reflexivity.
Defined.

Lemma getEditorRoot_rejected_only_on_timeout_witness :
  timeout_error = timeout_error ∧ 601 ≤ 601 ∧
  ∀ k, 1 ≤ k ≤ 601 → no_toolbar k (selector decimalNumber "6.7.1") = None.
Proof.
  apply (getEditorRoot_rejected_only_on_timeout decimalNumber "6.7.1"
           no_toolbar 601 timeout_error).
  vm_compute. reflexivity.
Defined.

(** ** Rule providers that only add *)

Lemma bind_ok_inv {A B} (c : M A) (k : A → M B) w b w2 :
  bind c k w = (Ok b, w2) →
  ∃ a w1, c w = (Ok a, w1) ∧ k a w1 = (Ok b, w2).
Proof.
  unfold bind. destruct (c w) as [[a|e] w1]; [|done]. intros H. eauto.
Qed.

Lemma runCallbacks_additive cbs v w r w' :
  Forall additive cbs → runCallbacks cbs v w = (Ok r, w') → v ⊆ r.
Proof.
  intros Hall. revert v w. induction Hall as [|cb cbs Hcb _ IH];
    intros v w; simpl.
  - by intros [= -> _].
  - intros H. apply bind_ok_inv in H as (v1 & w1 & Hcb1 & Hrest).
    etrans; [exact (Hcb _ _ _ _ Hcb1)|exact (IH _ _ Hrest)].
Qed.

Lemma text_names_spec (w : World) (names : list string) :
  getTextBlocks w = (Ok names, w) →
  ∀ n, n ∈ names ↔
       ∃ block, block ∈ blockTypes w ∧ category block = VStr "text" ∧
                name block = n.
Proof.
  intros [= <-] n. rewrite list_elem_of_In, in_map_iff. split.
  - intros (block & <- & Hin). apply filter_In in Hin as [Hin Htext].
    exists block. by rewrite list_elem_of_In, <- strict_equals_str.
  - intros (block & Hin & Htext & <-). exists block. split; [done|].
    apply filter_In. by rewrite <- list_elem_of_In, strict_equals_str.
Qed.

(** X10.  Providers that only add cannot take a text block away: if every
    callback registered for [allowedBlocks] returns a list containing the
    one it was given, then whenever [getAllowedBlocks] returns, the name
    of every registered text block is in the result, whatever the other
    hook's providers do. *)
Theorem getAllowedBlocks_keeps_defaults (hooks : Hooks) (w w2 : World)
  (allowed : list value) :
  Forall additive (registered hooks allowedBlocks_hook) →
  getAllowedBlocks hooks w = (Ok allowed, w2) →
  ∀ block, block ∈ blockTypes w → category block = VStr "text" →
           VStr (name block) ∈ allowed.
Proof.
  intros Hadd Hrun block Hin Htext. unfold getAllowedBlocks in Hrun.
  apply bind_ok_inv in Hrun as (names & w0 & Hnames & Hrun).
  assert (w0 = w) as -> by (by injection Hnames).
  apply bind_ok_inv in Hrun as (blocks & w1 & Hblocks & Hrun).
  apply bind_ok_inv in Hrun as (fields & w3 & _ & Hrun).
  apply bind_ok_inv in Hrun as (fieldBlocks & w4 & _ & Hret).
  injection Hret as <- _.
  apply elem_of_app. left.
  apply (runCallbacks_additive _ _ _ _ _ Hadd Hblocks).
  apply list_elem_of_In, in_map, list_elem_of_In.
  apply (text_names_spec w names Hnames). eauto.
Qed.

Lemma getAllowedBlocks_keeps_defaults_witness :
  VStr "core/heading" ∈
    [VStr "core/paragraph"; VStr "core/heading"; VNum (Num 42);
     VUndefined; VUndefined].
Proof.
  apply (getAllowedBlocks_keeps_defaults number_hooks sample_world
           sample_world _) with (block := heading).
  - unfold additive. vm_compute registered. constructor; [|constructor].
    intros v w r w' [= <- _]. by apply list_subseteq_app_l.
  - reflexivity.
  - apply list_elem_of_In. simpl. tauto.
  - reflexivity.
Defined.

(** ** A [null] rule stops every registration *)

Lemma SearchReplaceToolbarIcon_run (hooks : Hooks) (settings : loc)
  (w w1 : World) (r : result (list value)) :
  getAllowedBlocks hooks w = (r, w1) →
  SearchReplaceToolbarIcon hooks settings w =
    match r with
    | Ok allowed =>
        (if bool_decide (indexOf allowed
               (default VUndefined (own_prop w settings "name")) = (-1)%Z)
         then ret (VRef settings)
         else wrapped <- newClosure (ToolbarEdit
                           (default VUndefined (own_prop w settings "edit"))) ;;
              _ <- setProp settings "edit" (VRef wrapped) ;;
              ret (VRef settings)) w1
    | Throw e => (Throw e, w1)
    end.
Proof.
  intros Hallowed. unfold SearchReplaceToolbarIcon.
  erewrite bind_ok by reflexivity. erewrite bind_ok by reflexivity.
  destruct r as [allowed|e].
  - by erewrite bind_ok by exact Hallowed.
  - by erewrite bind_throw by exact Hallowed.
Qed.

(** X11.  One [null] or [undefined] among the block-and-field rules
    makes [SearchReplaceToolbarIcon] throw a [TypeError] for every
    settings object, eligible or not, and it throws before writing
    anything: the world is the one the providers left. *)
Theorem SearchReplaceToolbarIcon_null_rule (hooks : Hooks) (w w1 w2 : World)
  (blocks fields : list value) (settings : loc) :
  allowedBlocksFilter hooks w = (Ok blocks, w1) →
  getAllowedBlocksAndFields hooks w1 = (Ok fields, w2) →
  Exists nullish fields →
  SearchReplaceToolbarIcon hooks settings w = (Throw TypeError, w2).
Proof.
  intros H1 H2 Hnull.
  rewrite (SearchReplaceToolbarIcon_run hooks settings w w2 (Throw TypeError));
    [done|].
  rewrite (getAllowedBlocks_run _ _ _ _ _ _ H1 H2).
  rewrite decide_True; [done|].
  eapply Exists_impl; [exact Hnull|]. intros e He. by left.
Qed.

Lemma SearchReplaceToolbarIcon_null_rule_witness :
  SearchReplaceToolbarIcon null_hooks 1%positive settings_world =
    (Throw TypeError, settings_world).
Proof.
  apply (SearchReplaceToolbarIcon_null_rule null_hooks settings_world
           settings_world settings_world [VStr "core/paragraph"] [VNull]).
  - reflexivity.
  - reflexivity.
  - constructor. by right.
Defined.

(** ** The default configuration, end to end *)

Lemma strict_equals_eq (a b : value) : strict_equals a b = true → a = b.
Proof.
  destruct a as [| |x|[|x]|x|x], b as [| |y|[|y]|y|y]; simpl; try done;
    by intros ->%bool_decide_eq_true.
Qed.

Lemma includes_str (l : list value) (s : string) :
  includes l (VStr s) ↔ VStr s ∈ l.
Proof.
  split.
  - intros (y & Hy & Heq). by apply strict_equals_eq in Heq as <-.
  - intros Hin. exists (VStr s). split; [done|]. by apply strict_equals_str.
Qed.

Lemma includes_undefined (l : list value) :
  includes l VUndefined ↔ VUndefined ∈ l.
Proof.
  split.
  - intros (y & Hy & Heq). by apply strict_equals_eq in Heq as <-.
  - intros Hin. by exists VUndefined.
Qed.

Lemma default_allowed (hooks : Hooks) (w : World) (names : list string) :
  registered hooks allowedBlocks_hook = [] →
  registered hooks allowedBlocksAndFields_hook = [] →
  getTextBlocks w = (Ok names, w) →
  getAllowedBlocks hooks w =
    (Ok (map VStr names ++ replicate (length names) VUndefined), w).
Proof.
  intros Hblocks Hfields Hnames.
  assert (H1 : allowedBlocksFilter hooks w = (Ok (map VStr names), w)).
  { unfold allowedBlocksFilter. erewrite bind_ok by exact Hnames.
    by apply applyFilters_none. }
  assert (H2 : getAllowedBlocksAndFields hooks w = (Ok (map VStr names), w)).
  { unfold getAllowedBlocksAndFields. erewrite bind_ok by exact Hnames.
    by apply applyFilters_none. }
  rewrite (getAllowedBlocks_run _ _ _ _ _ _ H1 H2).
  rewrite decide_False by apply map_VStr_readable.
  by rewrite map_VStr_own_name.
Qed.

Lemma includes_default (w : World) (names : list string) (v : value) :
  getTextBlocks w = (Ok names, w) →
  includes (map VStr names ++ replicate (length names) VUndefined) v ↔
  eligible_by_default w v.
Proof.
  intros Hnames. pose proof (text_names_spec w names Hnames) as Hspec.
  unfold eligible_by_default. split.
  - intros (y & Hy & Heq). apply strict_equals_eq in Heq as <-.
    apply elem_of_app in Hy as [Hy|Hy].
    + apply list_elem_of_In, in_map_iff in Hy as (n & <- & Hn).
      apply list_elem_of_In, Hspec in Hn as (block & Hin & Htext & <-).
      left. eauto.
    + apply elem_of_replicate in Hy as [-> Hlen]. right. split; [done|].
      destruct names as [|n names]; [done|].
      destruct (proj1 (Hspec n)) as (block & Hin & Htext & _);
        [constructor|eauto].
  - intros [(block & Hin & Htext & ->)|(-> & block & Hin & Htext)].
    + apply includes_str, elem_of_app. left.
      apply list_elem_of_In, in_map, list_elem_of_In, Hspec. eauto.
    + apply includes_undefined, elem_of_app. right.
      apply elem_of_replicate. split; [done|].
      assert (Hn : name block ∈ names) by (apply Hspec; eauto).
      destruct names; [by apply elem_of_nil in Hn|done].
Qed.

(** X12.  With no filter registered, [getAllowedBlocks] returns a list
    in which [indexOf] finds exactly the names of the registered text
    blocks, and also [undefined] as soon as one text block is
    registered. *)
Theorem getAllowedBlocks_default_eligibility (hooks : Hooks) (w : World) :
  registered hooks allowedBlocks_hook = [] →
  registered hooks allowedBlocksAndFields_hook = [] →
  ∃ allowed,
    getAllowedBlocks hooks w = (Ok allowed, w) ∧
    ∀ v, indexOf allowed v ≠ (-1)%Z ↔ eligible_by_default w v.
Proof.
  intros Hblocks Hfields.
  destruct (getTextBlocks_run w) as [names Hnames].
  eexists. split; [by apply default_allowed|].
  intros v. rewrite indexOf_not_found, <- (includes_default w names v Hnames).
  split; [|tauto]. intros Hnn.
  destruct (indexOf_from_spec 0%Z
              (map VStr names ++ replicate (length names) VUndefined) v
              ltac:(lia)) as [[_ Hn]|[_ Hin]]; [tauto|done].
Qed.

Lemma getAllowedBlocks_default_eligibility_witness :
  ∃ allowed,
    getAllowedBlocks no_hooks sample_world = (Ok allowed, sample_world) ∧
    indexOf allowed VUndefined ≠ (-1)%Z ∧
    indexOf allowed (VStr "core/image") = (-1)%Z.
Proof.
  destruct (getAllowedBlocks_default_eligibility no_hooks sample_world
              eq_refl eq_refl) as (allowed & Hrun & Hiff).
  exists allowed. split; [exact Hrun|]. split.
  - apply Hiff. right. split; [done|]. exists paragraph.
    split; [constructor|done].
  - destruct (decide (indexOf allowed (VStr "core/image") = (-1)%Z))
      as [|Hne]; [done|].
    apply Hiff in Hne as [(block & Hin & Htext & Hname)|[? _]]; [|done].
    apply list_elem_of_In in Hin. simpl in Hin.
    destruct Hin as [<-|[<-|[<-|[]]]]; done.
Defined.

(** One run of the toolbar filter on an eligible block in the default
    configuration. *)
Lemma toolbar_default_step (hooks : Hooks) (w : World) (settings : loc) :
  registered hooks allowedBlocks_hook = [] →
  registered hooks allowedBlocksAndFields_hook = [] →
  settings ∈ dom (heap w) →
  eligible_by_default w (default VUndefined (own_prop w settings "name")) →
  ∃ (w' : World) (wrapped : loc),
    SearchReplaceToolbarIcon hooks settings w = (Ok (VRef settings), w') ∧
    (wrapped ∉ dom (heap w)) ∧
    wrapped ∈ dom (heap w') ∧
    settings ∈ dom (heap w') ∧
    blockTypes w' = blockTypes w ∧
    own_prop w' settings "edit" = Some (VRef wrapped) ∧
    (∀ k, k ≠ "edit" → own_prop w' settings k = own_prop w settings k) ∧
    heap w' !! wrapped =
      Some (Object ∅ (Some (ToolbarEdit
              (default VUndefined (own_prop w settings "edit"))))) ∧
    (∀ l, l ≠ settings → l ≠ wrapped → heap w' !! l = heap w !! l).
Proof.
  intros Hblocks Hfields Hdom Hel.
  destruct (getTextBlocks_run w) as [names Hnames].
  rewrite (SearchReplaceToolbarIcon_run hooks settings w w _
             (default_allowed hooks w names Hblocks Hfields Hnames)).
  apply (includes_default w names _ Hnames) in Hel.
  rewrite bool_decide_eq_false_2 by (by rewrite indexOf_not_found; tauto).
  pose proof (is_fresh (dom (heap w))) as Hfresh.
  pose proof Hdom as Hdom'. apply elem_of_dom in Hdom' as [o Ho].
  rewrite (wrap_edit_run _ _ _ _ Ho).
  set (wrapped := fresh (dom (heap w))) in *.
  assert (Hne : wrapped ≠ settings) by (by intros E; rewrite E in Hfresh).
  eexists _, wrapped. split; [reflexivity|].
  unfold own_prop. cbn [blockTypes heap].
  rewrite !dom_insert_L.
  rewrite lookup_insert_eq, lookup_insert_ne, lookup_insert_eq, Ho by done.
  cbn [own code mbind option_bind].
  rewrite lookup_insert_eq.
  split; [done|]. split; [apply elem_of_union_r, elem_of_union_l;
                           by apply elem_of_singleton|].
  split; [by apply elem_of_union_l, elem_of_singleton|].
  repeat split; try done.
  - intros k Hk. by rewrite lookup_insert_ne.
  - intros l Hl Hlw. by rewrite !lookup_insert_ne.
Qed.

(** X13.  In the default configuration the toolbar goes to the text
    blocks, and to any settings without a name as soon as a text block is
    registered: the settings come back untouched when their name is
    neither the name of a registered text block nor missing with a text
    block registered; otherwise [edit] is replaced by a new function
    wrapping the previous one, and the name stays. *)
Theorem SearchReplaceToolbarIcon_default (hooks : Hooks) (w : World)
  (settings : loc) :
  registered hooks allowedBlocks_hook = [] →
  registered hooks allowedBlocksAndFields_hook = [] →
  settings ∈ dom (heap w) →
  (¬ eligible_by_default w (default VUndefined (own_prop w settings "name")) →
   SearchReplaceToolbarIcon hooks settings w = (Ok (VRef settings), w)) ∧
  (eligible_by_default w (default VUndefined (own_prop w settings "name")) →
   ∃ (w' : World) (wrapped : loc),
     SearchReplaceToolbarIcon hooks settings w = (Ok (VRef settings), w') ∧
     (wrapped ∉ dom (heap w)) ∧
     own_prop w' settings "edit" = Some (VRef wrapped) ∧
     own_prop w' settings "name" = own_prop w settings "name" ∧
     heap w' !! wrapped =
       Some (Object ∅ (Some (ToolbarEdit
               (default VUndefined (own_prop w settings "edit")))))).
Proof.
  intros Hblocks Hfields Hdom. split.
  - intros Hnot. destruct (getTextBlocks_run w) as [names Hnames].
    rewrite (SearchReplaceToolbarIcon_run hooks settings w w _
               (default_allowed hooks w names Hblocks Hfields Hnames)).
    rewrite <- (includes_default w names _ Hnames) in Hnot.
    by rewrite bool_decide_eq_true_2 by (by apply indexOf_not_found).
  - intros Hel.
    destruct (toolbar_default_step hooks w settings Hblocks Hfields Hdom Hel)
      as (w' & wrapped & Hrun & Hfresh & _ & _ & _ & Hedit & Hother & Hcode & _).
    exists w', wrapped. repeat split; try done. by apply Hother.
Qed.

Lemma SearchReplaceToolbarIcon_default_witness :
  ∃ w', SearchReplaceToolbarIcon no_hooks 1%positive nameless_world =
          (Ok (VRef 1%positive), w') ∧
        own_prop w' 1%positive "edit" ≠ Some VNull.
Proof.
  destruct (SearchReplaceToolbarIcon_default no_hooks nameless_world 1%positive
              eq_refl eq_refl) as [_ Hyes].
  - apply elem_of_dom. eexists. reflexivity.
  - destruct Hyes as (w' & wrapped & Hrun & _ & Hedit & _).
    + right. split; [reflexivity|]. exists paragraph.
      split; [constructor|reflexivity].
    + exists w'. split; [exact Hrun|]. by rewrite Hedit.
Defined.

(** X14.  The filter is not idempotent: run twice on an eligible block
    (default configuration) it wraps twice.  [edit] ends up as a second
    new function, which wraps the first one, which wraps the original. *)
Theorem SearchReplaceToolbarIcon_twice (hooks : Hooks) (w : World)
  (settings : loc) :
  registered hooks allowedBlocks_hook = [] →
  registered hooks allowedBlocksAndFields_hook = [] →
  settings ∈ dom (heap w) →
  eligible_by_default w (default VUndefined (own_prop w settings "name")) →
  ∃ (w1 w2 : World) (first second : loc),
    SearchReplaceToolbarIcon hooks settings w = (Ok (VRef settings), w1) ∧
    SearchReplaceToolbarIcon hooks settings w1 = (Ok (VRef settings), w2) ∧
    first ≠ second ∧
    own_prop w2 settings "edit" = Some (VRef second) ∧
    code <$> heap w2 !! second = Some (Some (ToolbarEdit (VRef first))) ∧
    code <$> heap w2 !! first =
      Some (Some (ToolbarEdit
                    (default VUndefined (own_prop w settings "edit")))).
Proof.
  intros Hblocks Hfields Hdom Hel.
  destruct (toolbar_default_step hooks w settings Hblocks Hfields Hdom Hel)
    as (w1 & first & Hrun1 & Hfresh1 & Hin1 & Hdom1 & Hreg1 & Hedit1 & Hother1
        & Hcode1 & _).
  assert (Hel1 : eligible_by_default w1
            (default VUndefined (own_prop w1 settings "name"))).
  { rewrite Hother1 by done. unfold eligible_by_default in *.
    by rewrite Hreg1. }
  destruct (toolbar_default_step hooks w1 settings Hblocks Hfields Hdom1 Hel1)
    as (w2 & second & Hrun2 & Hfresh2 & _ & _ & _ & Hedit2 & _ & Hcode2
        & Hrest2).
  assert (Hne : first ≠ second) by (intros ->; done).
  assert (Hns : first ≠ settings) by (intros ->; done).
  exists w1, w2, first, second. repeat split; try done.
  - rewrite Hcode2, Hedit1. done.
  - rewrite Hrest2, Hcode1 by done. done.
Qed.

Lemma SearchReplaceToolbarIcon_twice_witness :
  ∃ (w1 w2 : World) (first second : loc),
    SearchReplaceToolbarIcon no_hooks 1%positive settings_world
      = (Ok (VRef 1%positive), w1) ∧
    SearchReplaceToolbarIcon no_hooks 1%positive w1
      = (Ok (VRef 1%positive), w2) ∧
    first ≠ second ∧
    code <$> heap w2 !! first = Some (Some (ToolbarEdit (VRef 2%positive))).
Proof.
  destruct (SearchReplaceToolbarIcon_twice no_hooks settings_world 1%positive
              eq_refl eq_refl)
    as (w1 & w2 & first & second & H1 & H2 & Hne & _ & _ & Hcode).
  - apply elem_of_dom. eexists. reflexivity.
  - left. exists paragraph. split; [constructor|]. split; reflexivity.
  - exists w1, w2, first, second. repeat split; done.
Defined.

(** ** [getAppRoot]: a new last child, every time *)

Lemma ancestor_outside (fuel : nat) (tree : Dom) (c n : loc) (nd : node) :
  closed tree → c ∉ dom tree → n ∈ dom tree →
  inclusive_ancestor fuel (<[c := nd]> tree) c n = false.
Proof.
  intros Hclosed Hc. revert n. induction fuel as [|fuel IH]; intros n Hn; simpl.
  - rewrite bool_decide_eq_false_2 by (intros ->; done). done.
  - rewrite bool_decide_eq_false_2 by (intros ->; done).
    rewrite orb_false_l, lookup_insert_ne by (intros ->; done).
    destruct (tree !! n) as [x|] eqn:Hx; simpl; [|done].
    destruct (parentNode x) as [p|] eqn:Hp; [|done].
    apply IH. by apply (Hclosed n x p).
Qed.

(** One run of [getAppRoot] on an element of a closed tree. *)
Lemma getAppRoot_step (tree : Dom) (parent : loc) (p : node) :
  closed tree → tree !! parent = Some p →
  ∃ (container : loc) (tree' : Dom),
    getAppRoot parent tree = (DomOk container, tree') ∧
    (container ∉ dom tree) ∧
    tree' !! container = Some (Node "div" "search-replace" [] (Some parent)) ∧
    tree' !! parent =
      Some (Node (localName p) (node_id p) (childNodes p ++ [container])
              (parentNode p)) ∧
    (∀ l, l ≠ parent → l ≠ container → tree' !! l = tree !! l) ∧
    closed tree'.
Proof.
  intros Hclosed Hp.
  pose proof (is_fresh (dom tree)) as Hfresh.
  assert (Hparent : parent ∈ dom tree) by (apply elem_of_dom; eauto).
  unfold getAppRoot, createElement, set_id.
  set (c := fresh (dom tree)) in *.
  assert (Hne : c ≠ parent) by (intros E; by rewrite E in Hfresh).
  rewrite alter_insert_eq. unfold appendChild.
  rewrite ancestor_outside by done.
  unfold detach. rewrite lookup_insert_eq. simpl.
  exists c. eexists. split; [reflexivity|]. split; [done|].
  assert (H1 : ∀ f g (m : Dom), alter f c (alter g parent m) !! c = f <$> m !! c).
  { intros f g m. by rewrite lookup_alter_eq, lookup_alter_ne. }
  assert (H2 : ∀ f g (m : Dom),
            alter f c (alter g parent m) !! parent = g <$> m !! parent).
  { intros f g m. by rewrite lookup_alter_ne, lookup_alter_eq. }
  assert (H3 : ∀ f g (m : Dom) l, l ≠ parent → l ≠ c →
            alter f c (alter g parent m) !! l = m !! l).
  { intros f g m l ? ?. by rewrite !lookup_alter_ne. }
  split; [by rewrite H1, lookup_insert_eq|].
  split; [by rewrite H2, lookup_insert_ne, Hp|].
  split; [intros l ? ?; by rewrite H3, lookup_insert_ne|].
  intros l n q Hl Hq. rewrite !dom_alter_L, dom_insert_L.
  destruct (decide (l = c)) as [->|Hlc].
  { rewrite H1, lookup_insert_eq in Hl. injection Hl as <-.
    injection Hq as <-. by apply elem_of_union_r. }
  destruct (decide (l = parent)) as [->|Hlp].
  { rewrite H2, lookup_insert_ne, Hp in Hl by done. injection Hl as <-.
    apply elem_of_union_r. by apply (Hclosed parent p q). }
  rewrite H3, lookup_insert_ne in Hl by done.
  apply elem_of_union_r. by apply (Hclosed l n q).
Qed.

(** X15.  [getAppRoot(parent)] never fails on an element of a well-formed
    tree.  It returns a node that did not exist before: a [div] with id
    [search-replace], no children, and [parent] as its parent.  It is
    placed after all the children [parent] already had, and no other node
    changes. *)
Theorem getAppRoot_frame (tree : Dom) (parent : loc) (p : node) :
  closed tree → tree !! parent = Some p →
  ∃ (container : loc) (tree' : Dom),
    getAppRoot parent tree = (DomOk container, tree') ∧
    (container ∉ dom tree) ∧
    tree' !! container = Some (Node "div" "search-replace" [] (Some parent)) ∧
    tree' !! parent =
      Some (Node (localName p) (node_id p) (childNodes p ++ [container])
              (parentNode p)) ∧
    (∀ l, l ≠ parent → l ≠ container → tree' !! l = tree !! l).
Proof.
  intros Hclosed Hp.
  destruct (getAppRoot_step tree parent p Hclosed Hp)
    as (c & tree' & Hrun & Hfresh & Hc & Hparent & Hrest & _).
  by exists c, tree'.
Qed.

Lemma sample_dom_closed : closed sample_dom.
Proof.
  intros l n q Hl Hq. apply elem_of_dom.
  destruct (decide (l = 1%positive)) as [->|H1].
  { vm_compute in Hl. injection Hl as <-. done. }
  destruct (decide (l = 2%positive)) as [->|H2].
  { vm_compute in Hl. injection Hl as <-. injection Hq as <-.
    eexists. reflexivity. }
  unfold sample_dom in Hl.
  by rewrite lookup_insert_ne, lookup_singleton_ne in Hl.
Qed.

Lemma getAppRoot_frame_witness :
  ∃ (container : loc) (tree' : Dom),
    getAppRoot 1%positive sample_dom = (DomOk container, tree') ∧
    tree' !! 1%positive =
      Some (Node "div" "" [2%positive; container] None).
Proof.
  destruct (getAppRoot_frame sample_dom 1%positive
              (Node "div" "" [2%positive] None) sample_dom_closed eq_refl)
    as (c & tree' & Hrun & _ & _ & Hparent & _).
  by exists c, tree'.
Defined.

(** X16.  [getAppRoot] does not look for a container that is already
    there: called twice on the same element it leaves two different
    [div]s, both with the id [search-replace], as the last two children
    of the element, in the order of the calls. *)
Theorem getAppRoot_twice (tree : Dom) (parent : loc) (p : node) :
  closed tree → tree !! parent = Some p →
  ∃ (first second : loc) (tree1 tree2 : Dom),
    getAppRoot parent tree = (DomOk first, tree1) ∧
    getAppRoot parent tree1 = (DomOk second, tree2) ∧
    first ≠ second ∧
    node_id <$> tree2 !! first = Some "search-replace" ∧
    node_id <$> tree2 !! second = Some "search-replace" ∧
    childNodes <$> tree2 !! parent = Some (childNodes p ++ [first; second]).
Proof.
  intros Hclosed Hp.
  destruct (getAppRoot_step tree parent p Hclosed Hp)
    as (c1 & tree1 & Hrun1 & Hfresh1 & Hc1 & Hparent1 & Hrest1 & Hclosed1).
  destruct (getAppRoot_step tree1 parent _ Hclosed1 Hparent1)
    as (c2 & tree2 & Hrun2 & Hfresh2 & Hc2 & Hparent2 & Hrest2 & _).
  assert (Hne : c1 ≠ c2).
  { intros ->. apply Hfresh2, elem_of_dom. eauto. }
  assert (Hnp : c1 ≠ parent).
  { intros ->. apply Hfresh1, elem_of_dom. eauto. }
  exists c1, c2, tree1, tree2. repeat split; try done.
  - by rewrite Hrest2, Hc1.
  - by rewrite Hc2.
  - rewrite Hparent2. simpl. by rewrite <- app_assoc.
Qed.

Lemma getAppRoot_twice_witness :
  ∃ (first second : loc) (tree1 tree2 : Dom),
    getAppRoot 1%positive sample_dom = (DomOk first, tree1) ∧
    getAppRoot 1%positive tree1 = (DomOk second, tree2) ∧
    first ≠ second ∧
    childNodes <$> tree2 !! 1%positive = Some [2%positive; first; second].
Proof.
  destruct (getAppRoot_twice sample_dom 1%positive
              (Node "div" "" [2%positive] None) sample_dom_closed eq_refl)
    as (c1 & c2 & t1 & t2 & H1 & H2 & Hne & _ & _ & Hkids).
  by exists c1, c2, t1, t2.
Defined.

(** ** [getShortcut]: a new option object on every call *)

(** One run of [getShortcut] with no filter registered. *)
Lemma getShortcut_step (hooks : ScalarHooks) (w : World) :
  hooks !! keyboardShortcut_hook = None →
  ∃ (w' : World) (shift : loc),
    getShortcut hooks w = (Ok (VRef shift), w') ∧
    (shift ∉ dom (heap w)) ∧
    shift ∈ dom (heap w') ∧
    heap w' !! shift =
      Some (Object {[ "modifier" := VStr "primaryShift";
                      "character" := VStr "f" ]} None) ∧
    blockTypes w' = blockTypes w ∧
    (∀ l, l ∈ dom (heap w) → heap w' !! l = heap w !! l).
Proof.
  intros Hnone. destruct w as [types h].
  unfold getShortcut, applyFiltersScalar. rewrite Hnone.
  unfold bind, newObject, setProp, getProp, modify, gets, ret, own_prop.
  cbn [heap blockTypes default runScalarCallbacks].
  set (o := fresh (dom h)).
  set (h1 := <[o := Object ∅ None]> h).
  set (c := fresh (dom h1)).
  set (h2 := <[c := _]> h1).
  assert (Ho : o ∉ dom h) by apply is_fresh.
  assert (Hc : c ∉ dom h1) by apply is_fresh.
  assert (Hoc : o ≠ c).
  { intros E. apply Hc. rewrite <- E. unfold h1. rewrite dom_insert_L.
    by apply elem_of_union_l, elem_of_singleton. }
  assert (H2o : h2 !! o = Some (Object ∅ None)).
  { unfold h2, h1. by rewrite lookup_insert_ne, lookup_insert_eq. }
  rewrite H2o. cbn [default own code].
  set (h3 := <[o := _]> h2).
  set (s := fresh (dom h3)).
  set (h4 := <[s := _]> h3).
  assert (Hs : s ∉ dom h3) by apply is_fresh.
  assert (Hos : o ≠ s).
  { intros E. apply Hs. rewrite <- E. unfold h3. rewrite dom_insert_L.
    by apply elem_of_union_l, elem_of_singleton. }
  assert (H4o : h4 !! o = Some (Object (<["CMD" := VRef c]> ∅) None)).
  { unfold h4, h3. by rewrite lookup_insert_ne, lookup_insert_eq. }
  rewrite H4o. cbn [default own code].
  set (h5 := <[o := _]> h4).
  set (a := fresh (dom h5)).
  set (h6 := <[a := _]> h5).
  assert (Ha : a ∉ dom h5) by apply is_fresh.
  assert (Hoa : o ≠ a).
  { intros E. apply Ha. rewrite <- E. unfold h5. rewrite dom_insert_L.
    by apply elem_of_union_l, elem_of_singleton. }
  assert (Hsa : s ≠ a).
  { intros E. apply Ha. rewrite <- E. unfold h5, h4. rewrite !dom_insert_L.
    by apply elem_of_union_r, elem_of_union_l, elem_of_singleton. }
  assert (H6o : h6 !! o =
            Some (Object (<["SHIFT" := VRef s]> (<["CMD" := VRef c]> ∅)) None)).
  { unfold h6, h5. by rewrite lookup_insert_ne, lookup_insert_eq. }
  rewrite H6o. cbn [default own code].
  assert (Hsub : ∀ l, l ∈ dom h → l ≠ o ∧ l ≠ c ∧ l ≠ s ∧ l ≠ a).
  { intros l Hl. repeat split; intros ->.
    - done.
    - apply Hc. unfold h1. rewrite dom_insert_L. by apply elem_of_union_r.
    - apply Hs. unfold h3, h2, h1. rewrite !dom_insert_L.
      by do 3 apply elem_of_union_r.
    - apply Ha. unfold h5, h4, h3, h2, h1. rewrite !dom_insert_L.
      by do 5 apply elem_of_union_r. }
  eexists _, s. split.
  { rewrite lookup_insert_eq. cbn [mbind option_bind own id].
    rewrite lookup_insert_ne, lookup_insert_eq by done. reflexivity. }
  cbn [heap blockTypes].
  split.
  { intros Hin. apply Hs. unfold h3, h2, h1. rewrite !dom_insert_L.
    by do 3 apply elem_of_union_r. }
  split.
  { unfold h6, h5, h4. rewrite !dom_insert_L.
    by do 3 apply elem_of_union_r; apply elem_of_union_l, elem_of_singleton. }
  split.
  { unfold h6, h5, h4.
    by rewrite lookup_insert_ne, lookup_insert_ne, lookup_insert_ne,
      lookup_insert_eq. }
  split; [done|].
  intros l Hl. destruct (Hsub l Hl) as (? & ? & ? & ?).
  unfold h6, h5, h4, h3, h2, h1. by rewrite !lookup_insert_ne.
Qed.

(** X17.  With no filter registered [getShortcut] returns the
    [primaryShift] + [f] binding, in an object that did not exist before
    the call, and leaves every object that did exist as it was. *)
Theorem getShortcut_default (hooks : ScalarHooks) (w : World) :
  hooks !! keyboardShortcut_hook = None →
  ∃ (w' : World) (shift : loc),
    getShortcut hooks w = (Ok (VRef shift), w') ∧
    (shift ∉ dom (heap w)) ∧
    own_prop w' shift "modifier" = Some (VStr "primaryShift") ∧
    own_prop w' shift "character" = Some (VStr "f") ∧
    blockTypes w' = blockTypes w ∧
    (∀ l, l ∈ dom (heap w) → heap w' !! l = heap w !! l).
Proof.
  intros Hnone.
  destruct (getShortcut_step hooks w Hnone)
    as (w' & shift & Hrun & Hfresh & _ & Hobj & Htypes & Hrest).
  exists w', shift. unfold own_prop. rewrite Hobj. by repeat split.
Qed.

Lemma getShortcut_default_witness :
  ∃ (w' : World) (shift : loc),
    getShortcut ∅ settings_world = (Ok (VRef shift), w') ∧
    own_prop w' shift "modifier" = Some (VStr "primaryShift") ∧
    heap w' !! 1%positive = heap settings_world !! 1%positive.
Proof.
  destruct (getShortcut_default ∅ settings_world (lookup_empty _))
    as (w' & shift & Hrun & _ & Hmod & _ & _ & Hrest).
  exists w', shift. split; [exact Hrun|]. split; [exact Hmod|].
  apply Hrest, elem_of_dom. eexists. reflexivity.
Defined.

(** X18.  No two calls of [getShortcut] return the same object: with no
    filter registered, the binding of a second call is a different
    reference from the binding of the first. *)
Theorem getShortcut_fresh_each_call (hooks : ScalarHooks) (w : World) :
  hooks !! keyboardShortcut_hook = None →
  ∃ (w1 w2 : World) (first second : loc),
    getShortcut hooks w = (Ok (VRef first), w1) ∧
    getShortcut hooks w1 = (Ok (VRef second), w2) ∧
    strict_equals (VRef first) (VRef second) = false.
Proof.
  intros Hnone.
  destruct (getShortcut_step hooks w Hnone)
    as (w1 & first & Hrun1 & _ & Hin1 & _).
  destruct (getShortcut_step hooks w1 Hnone)
    as (w2 & second & Hrun2 & Hfresh2 & _).
  exists w1, w2, first, second. repeat split; try done.
  simpl. apply bool_decide_eq_false. by intros ->.
Qed.

Lemma getShortcut_fresh_each_call_witness :
  ∃ (w1 w2 : World) (first second : loc),
    getShortcut ∅ sample_world = (Ok (VRef first), w1) ∧
    getShortcut ∅ w1 = (Ok (VRef second), w2) ∧
    strict_equals (VRef first) (VRef second) = false.
Proof.
  apply (getShortcut_fresh_each_call ∅ sample_world). apply lookup_empty.
Defined.
